(** * chatgpt-bot: conversation linking and threaded delivery

    A shallow embedding of [src/libs/bot.ts].  The Telegram transport, the
    completion provider and the Redis store are external services; their
    answers are supplied by an environment (an oracle indexed by the number
    of external calls already made), and every call is recorded in a trace.

    Modelling conventions:
    - a JavaScript string is a [string] (a sequence of code units, here
      8-bit ones); [length] and [substring] work on code units;
    - chat and message identifiers are integers ([Z]); their decimal
      rendering in template literals is stdpp's [pretty];
    - an [async] function is a computation in the monad [M] (state and
      exceptions); each update handler runs to completion, so interleaving
      of concurrent handlers is outside the model;
    - the Redis client is assumed to answer every [get] and [set];
    - logging ([Logging.*], [console.log]) has no effect on the modelled
      state and is left out, and so is the [/start] usage listener, which
      only sends a fixed text; [on_message] is the [message] listener that
      [dispatch] installs. *)

From Stdlib Require Import ZArith String Ascii List Lia.
From stdpp Require Import base option list strings gmap pretty.

Set Warnings "-register-all".

Local Open Scope Z_scope.
Local Open Scope nat_scope.

(** ** Strings *)

Module Text.

(** [s.substring(start, stop)]: the code units at offsets [start] up to
    [stop] (excluded), both clamped to the length of [s]; the two
    arguments are swapped when [stop < start]. *)
Definition substring (start stop : nat) (s : string) : string :=
  String.substring (Nat.min start stop) (Nat.max start stop - Nat.min start stop) s.

Fixpoint concat (l : list string) : string :=
  match l with
  | [] => EmptyString
  | s :: l' => s +:+ concat l'
  end.

(** [s.startsWith(p)], returning the remainder after [p]. *)
Fixpoint strip_prefix (p s : string) : option string :=
  match p, s with
  | EmptyString, _ => Some s
  | String a p', String b s' => if Ascii.eqb a b then strip_prefix p' s' else None
  | String _ _, EmptyString => None
  end.

Definition startsWith (s p : string) : bool :=
  match strip_prefix p s with Some _ => true | None => false end.

(** JavaScript truthiness of a string. *)
Definition truthy (s : string) : bool :=
  match s with EmptyString => false | _ => true end.

Fixpoint drop (n : nat) (s : string) : string :=
  match n, s with
  | 0, _ => s
  | S n', String _ s' => drop n' s'
  | S _, EmptyString => EmptyString
  end.

End Text.

(** ** Provider responses: [getOpenAIReply] *)

Inductive Role := system | user | assistant.

Record Turn := { role : Role; content : string }.

(** [message.content] is [string | null]. *)
Inductive Content := CString (s : string) | CNull.

(** One element of [resp.choices]; [message] may be missing. *)
Record Choice := { message : option Content }.

Record Completion := { choices : option (list Choice) }.

Definition newline : string := String "010"%char EmptyString.

(** The text a template literal substitutes for [elem.message?.content]. *)
Definition template_content (elem : Choice) : string :=
  match message elem with
  | None => "undefined"
  | Some CNull => "null"
  | Some (CString s) => s
  end.

(** The reducer passed to [reduce]: [`${accum}\n${elem.message?.content}`]. *)
Definition reply_reducer (accum : string) (elem : Choice) : string :=
  accum +:+ newline +:+ template_content elem.

(** [resp.choices?.reduce(...)] from the empty string: [None] stands for [undefined]. *)
Definition assemble_reply (resp : Completion) : option string :=
  match choices resp with
  | None => None
  | Some cs => Some (fold_left reply_reducer cs EmptyString)
  end.

(** ** Chunking: the first loop of [doWriteReply] *)

Definition PART_SIZE : nat := 2048.

(** [for (let i = 0; i < reply.length; i += PART_SIZE) parts.push(...)].
    [fuel] bounds the number of iterations; [split_parts] supplies enough. *)
Fixpoint parts_loop (fuel : nat) (reply : string) (i : nat) : list string :=
  match fuel with
  | 0 => []
  | S fuel' =>
      if i <? String.length reply
      then Text.substring i (i + PART_SIZE) reply :: parts_loop fuel' reply (i + PART_SIZE)
      else []
  end.

Definition split_parts (reply : string) : list string :=
  parts_loop (String.length reply) reply 0.

(** ** Data model *)

(** A Telegram message, with the fields the bot reads: [chat.id],
    [message_id], [from?.id], [text] and [reply_to_message]. *)
Inductive Message := mkMessage {
  chat_id : Z;
  message_id : Z;
  from_id : option Z;
  text : option string;
  reply_to_message : option Message
}.

Record ChatContext := { params : list Turn; model : string }.

Module AppState.
(** The fields of [AppState] that are data; the two clients
    ([openai], [redis]) are the environment and the store below. *)
Record t := { whitelist : list Z; model : string }.
End AppState.

(** A thrown value; [err_message] is its [message] property. *)
Record Error := { err_message : string }.

Inductive ParseMode := Markdown.

(** ** JSON.stringify on a [ChatContext] *)

Module JSON.

Definition dquote : ascii := "034"%char.
Definition backslash : ascii := "092"%char.

Definition hex_digit (n : nat) : ascii :=
  match n with
  | 0 => "0" | 1 => "1" | 2 => "2" | 3 => "3" | 4 => "4" | 5 => "5"
  | 6 => "6" | 7 => "7" | 8 => "8" | 9 => "9" | 10 => "a" | 11 => "b"
  | 12 => "c" | 13 => "d" | 14 => "e" | _ => "f"
  end%char.

(** QuoteJSONString, one code unit at a time. *)
Definition escape_char (c : ascii) : string :=
  let n := nat_of_ascii c in
  if n =? 34 then String backslash (String dquote EmptyString)
  else if n =? 92 then String backslash (String backslash EmptyString)
  else if n =? 8 then String backslash "b"
  else if n =? 9 then String backslash "t"
  else if n =? 10 then String backslash "n"
  else if n =? 12 then String backslash "f"
  else if n =? 13 then String backslash "r"
  else if n <? 32 then
    String backslash
      (String "u" (String "0" (String "0"
        (String (hex_digit (n / 16)) (String (hex_digit (n mod 16)) EmptyString)))))
  else String c EmptyString.

Fixpoint escape (s : string) : string :=
  match s with
  | EmptyString => EmptyString
  | String c s' => escape_char c +:+ escape s'
  end.

Definition quote (s : string) : string :=
  String dquote (escape s +:+ String dquote EmptyString).

Definition role_name (r : Role) : string :=
  match r with system => "system" | user => "user" | assistant => "assistant" end.

(** An object with the keys [role] and [content], in that order. *)
Definition turn (t : Turn) : string :=
  "{" +:+ quote "role" +:+ ":" +:+ quote (role_name (role t)) +:+ ","
      +:+ quote "content" +:+ ":" +:+ quote (content t) +:+ "}".

Fixpoint turns (l : list Turn) : string :=
  match l with
  | [] => EmptyString
  | [t] => turn t
  | t :: l' => turn t +:+ "," +:+ turns l'
  end.

(** [JSON.stringify({ model: model, params: messages })]: the keys are
    written in the order of the object literal in [doOpenAI]. *)
Definition stringify (c : ChatContext) : string :=
  "{" +:+ quote "model" +:+ ":" +:+ quote (model c) +:+ ","
      +:+ quote "params" +:+ ":[" +:+ turns (params c) +:+ "]}".

(** What [JSON.parse(data) as ChatContext] gives the caller:
    - [Throws]: [JSON.parse] raises a SyntaxError (unreadable text);
    - [Falsy]: the text is JSON for [null], [false], [0] or the empty
      string;
    - [Context c]: an object with the fields of a [ChatContext];
    - [Shapeless]: any other (truthy) value, one without a [params]
      array.
    Objects with a [params] array whose other fields are ill-typed are
    outside the model. *)
Inductive Parsed :=
| Throws
| Falsy
| Context (c : ChatContext)
| Shapeless.

End JSON.

(** ** A reader for stored contexts

    [JSON.parse] is a library function; the handlers are verified for every
    reader (a parameter of the model).  [Reader.parse] is the reader used in
    the concrete executions below: it reads the texts that [JSON.stringify]
    writes for a [ChatContext] (white space between tokens allowed) and the
    literal [null], and reports every other text as unreadable. *)

Module Reader.

Inductive Token :=
| TLBrace | TRBrace | TLBracket | TRBracket | TColon | TComma
| TString (s : string).

Inductive LexState :=
| Outside
| InString (acc : string)
| Escape (acc : string)
| Unicode (acc : string) (digits : list nat).

Definition hex_value (c : ascii) : option nat :=
  let n := nat_of_ascii c in
  if (48 <=? n) && (n <=? 57) then Some (n - 48)
  else if (97 <=? n) && (n <=? 102) then Some (n - 87)
  else if (65 <=? n) && (n <=? 70) then Some (n - 55)
  else None.

Definition snoc (acc : string) (c : ascii) : string := acc +:+ String c EmptyString.

Definition unescape (c : ascii) : option ascii :=
  let n := nat_of_ascii c in
  if n =? 34 then Some JSON.dquote
  else if n =? 92 then Some JSON.backslash
  else if n =? 47 then Some "/"%char
  else if n =? 98 then Some "008"%char
  else if n =? 116 then Some "009"%char
  else if n =? 110 then Some "010"%char
  else if n =? 102 then Some "012"%char
  else if n =? 114 then Some "013"%char
  else None.

Definition punctuation (c : ascii) : option Token :=
  let n := nat_of_ascii c in
  if n =? 123 then Some TLBrace
  else if n =? 125 then Some TRBrace
  else if n =? 91 then Some TLBracket
  else if n =? 93 then Some TRBracket
  else if n =? 58 then Some TColon
  else if n =? 44 then Some TComma
  else None.

Definition is_space (c : ascii) : bool :=
  let n := nat_of_ascii c in
  (n =? 32) || (n =? 9) || (n =? 10) || (n =? 13).

Fixpoint lex (st : LexState) (s : string) : option (list Token) :=
  match s with
  | EmptyString => match st with Outside => Some [] | _ => None end
  | String c s' =>
      match st with
      | Outside =>
          if Ascii.eqb c JSON.dquote then lex (InString EmptyString) s'
          else if is_space c then lex Outside s'
          else
            match punctuation c with
            | Some t => cons t <$> lex Outside s'
            | None => None
            end
      | InString acc =>
          if Ascii.eqb c JSON.dquote then cons (TString acc) <$> lex Outside s'
          else if Ascii.eqb c JSON.backslash then lex (Escape acc) s'
          else if nat_of_ascii c <? 32 then None
          else lex (InString (snoc acc c)) s'
      | Escape acc =>
          if Ascii.eqb c "u" then lex (Unicode acc []) s'
          else
            match unescape c with
            | Some d => lex (InString (snoc acc d)) s'
            | None => None
            end
      | Unicode acc digits =>
          match hex_value c with
          | None => None
          | Some d =>
              match digits with
              | [d1; d2; d3] =>
                  let n := ((d1 * 16 + d2) * 16 + d3) * 16 + d in
                  if n <? 256 then lex (InString (snoc acc (ascii_of_nat n))) s'
                  else None
              | _ => lex (Unicode acc (digits ++ [d])) s'
              end
          end
      end
  end.

Definition role_of (name : string) : option Role :=
  if String.eqb name "system" then Some system
  else if String.eqb name "user" then Some user
  else if String.eqb name "assistant" then Some assistant
  else None.

(** The elements of the [params] array, after its opening bracket and
    up to its closing one. *)
Fixpoint read_turns (ts : list Token) : option (list Turn * list Token) :=
  match ts with
  | TLBrace :: TString k1 :: TColon :: TString r :: TComma
      :: TString k2 :: TColon :: TString c :: TRBrace :: sep :: rest =>
      if String.eqb k1 "role" && String.eqb k2 "content" then
        match role_of r with
        | None => None
        | Some r' =>
            let t := {| role := r'; content := c |} in
            match sep with
            | TRBracket => Some ([t], rest)
            | TComma =>
                match read_turns rest with
                | Some (l, rest') => Some (t :: l, rest')
                | None => None
                end
            | _ => None
            end
        end
      else None
  | _ => None
  end.

Definition read_context (ts : list Token) : option ChatContext :=
  match ts with
  | TLBrace :: TString k1 :: TColon :: TString m :: TComma
      :: TString k2 :: TColon :: TLBracket :: rest =>
      if String.eqb k1 "model" && String.eqb k2 "params" then
        match rest with
        | [TRBracket; TRBrace] => Some {| params := []; model := m |}
        | _ =>
            match read_turns rest with
            | Some (l, [TRBrace]) => Some {| params := l; model := m |}
            | _ => None
            end
        end
      else None
  | _ => None
  end.

Definition parse (data : string) : JSON.Parsed :=
  if String.eqb data "null" then JSON.Falsy
  else
    match lex Outside data with
    | Some ts =>
        match read_context ts with
        | Some c => JSON.Context c
        | None => JSON.Throws
        end
    | None => JSON.Throws
    end.

(** The tokens of the text [JSON.stringify] writes. *)
Definition turn_tokens (t : Turn) : list Token :=
  [TLBrace; TString "role"; TColon; TString (JSON.role_name (role t)); TComma;
   TString "content"; TColon; TString (content t); TRBrace].

Fixpoint turns_tokens (l : list Turn) : list Token :=
  match l with
  | [] => []
  | [t] => turn_tokens t
  | t :: l' => turn_tokens t ++ TComma :: turns_tokens l'
  end.

Definition context_tokens (c : ChatContext) : list Token :=
  [TLBrace; TString "model"; TColon; TString (model c); TComma;
   TString "params"; TColon; TLBracket] ++ turns_tokens (params c)
    ++ [TRBracket; TRBrace].

End Reader.

(** ** External calls and their trace *)

Inductive Event :=
| EvSendMessage (chat : Z) (body : string) (reply_to : option Z)
    (mode : option ParseMode) (res : Error + Message)
| EvEditMessageText (body : string) (chat msg : Z)
    (mode : option ParseMode) (res : option Error)
| EvRedisGet (key : string) (res : option string)
| EvRedisSet (key value : string)
| EvCompletion (model : string) (messages : list Turn) (res : Error + Completion).

(** The answers of the transport and of the provider.  The first argument
    is the number of external calls made so far, so that the same call may
    be answered differently at different times. *)
Record Env := {
  tg_sendMessage : nat -> Z -> string -> option Z -> option ParseMode -> Error + Message;
  tg_editMessageText : nat -> string -> Z -> Z -> option ParseMode -> option Error;
  openai_create : nat -> string -> list Turn -> Error + Completion
}.

Record World := { redis : gmap string string; trace : list Event }.

Definition record (ev : Event) (w : World) : World :=
  {| redis := redis w; trace := trace w ++ [ev] |}.

(** ** The monad of [async] functions: state and exceptions *)

Inductive Outcome (A : Type) :=
| Returned (a : A)
| Thrown (e : Error).
Arguments Returned {A} a.
Arguments Thrown {A} e.

Definition M (A : Type) : Type := World -> Outcome A * World.

#[global] Instance M_ret : MRet M := fun A a w => (Returned a, w).

#[global] Instance M_bind : MBind M := fun A B f m w =>
  match m w with
  | (Returned a, w') => f a w'
  | (Thrown e, w') => (Thrown e, w')
  end.

Definition throw {A} (e : Error) : M A := fun w => (Thrown e, w).

(** [try { body } catch (e) { handler(e) }] *)
Definition try_catch {A} (body : M A) (handler : Error -> M A) : M A := fun w =>
  match body w with
  | (Returned a, w') => (Returned a, w')
  | (Thrown e, w') => handler e w'
  end.

(** A call whose promise is not awaited: the callee runs, and a rejection
    does not reach the caller. *)
Definition detached (m : M unit) : M unit := fun w =>
  let '(_, w') := m w in (Returned tt, w').

Definition TypeError (msg : string) : Error := {| err_message := msg |}.

Definition UNDEFINED_LENGTH : Error :=
  TypeError "Cannot read properties of undefined (reading 'length')".

Definition UNDEFINED_PUSH : Error :=
  TypeError "Cannot read properties of undefined (reading 'push')".

(** ** The command pattern of [dispatch]

    [/^\/openai(|3)(@babababababababababababababot)? (.+)/ms]: with the [m]
    flag the anchor matches at the start of the text and after every line
    terminator; with the [s] flag the dot matches every code unit, so the
    greedy last group takes the rest of the text. *)

Module Command.

Definition BOT_MENTION : string := "@babababababababababababababot".

(** The groups 1, 2 and 3 of a match. *)
Record Groups := { variant : string; mention : option string; payload : string }.

(** [ (.+)] after the first two groups. *)
Definition match_payload (g1 : string) (g2 : option string) (s : string) : option Groups :=
  match Text.strip_prefix " " s with
  | Some (String c rest) =>
      Some {| variant := g1; mention := g2; payload := String c rest |}
  | _ => None
  end.

(** [(@...bot)? (.+)]: the optional group is tried first, then skipped. *)
Definition match_mention (g1 : string) (s : string) : option Groups :=
  match
    match Text.strip_prefix BOT_MENTION s with
    | Some s' => match_payload g1 (Some BOT_MENTION) s'
    | None => None
    end
  with
  | Some g => Some g
  | None => match_payload g1 None s
  end.

(** The pattern tried at one start position: the alternatives of group 1
    in their order, the empty one first. *)
Definition match_here (s : string) : option Groups :=
  match Text.strip_prefix "/openai" s with
  | None => None
  | Some s1 =>
      match match_mention EmptyString s1 with
      | Some g => Some g
      | None =>
          match Text.strip_prefix "3" s1 with
          | Some s2 => match_mention "3" s2
          | None => None
          end
      end
  end.

Definition is_line_terminator (c : ascii) : bool :=
  (Ascii.eqb c "010" || Ascii.eqb c "013")%char.

(** The leftmost start position at which the pattern matches. *)
Fixpoint search (line_start : bool) (s : string) : option Groups :=
  match (if line_start then match_here s else None) with
  | Some g => Some g
  | None =>
      match s with
      | EmptyString => None
      | String c s' => search (is_line_terminator c) s'
      end
  end.

(** [usermsg.text.match(MSG_REGEX)] *)
Definition match_MSG_REGEX (txt : string) : option Groups := search true txt.

End Command.

(** ** The bot *)

Definition getMessageId (msg : Message) : string :=
  "msgid:" +:+ pretty (chat_id msg) +:+ "-" +:+ pretty (message_id msg).

(** [`ctx:${usermsg.chat.id}-${usermsg.message_id}`] *)
Definition new_context_id (usermsg : Message) : string :=
  "ctx:" +:+ pretty (chat_id usermsg) +:+ "-" +:+ pretty (message_id usermsg).

Definition SYSTEM_PRIMER : Turn := {| role := system; content := "you should be helpful" |}.

Definition waiting_text (model : string) : string :=
  "Waiting for reply from model `" +:+ model +:+ "`...".

Definition INTERNAL_ERROR : string := "Internal error, pls @🍊".

Definition NO_CONTEXT : string := "No context found for this message? This bot is a 🤡".

Definition NON_TEXT : string := "Non-text message is currently unsupported".

Definition fallback_notice (e : Error) : string :=
  "Error while parsing markdown, fallback to plaintext: " +:+ err_message e.

Section Bot.

Variable env : Env.

(** [JSON.parse] on the text read back from the store. *)
Variable JSON_parse : string -> JSON.Parsed.

Definition sendMessage (chat : Z) (body : string) (reply_to : option Z)
    (mode : option ParseMode) : M Message := fun w =>
  let res := tg_sendMessage env (length (trace w)) chat body reply_to mode in
  let w' := record (EvSendMessage chat body reply_to mode res) w in
  match res with
  | inl e => (Thrown e, w')
  | inr m => (Returned m, w')
  end.

Definition editMessageText (body : string) (chat msg : Z)
    (mode : option ParseMode) : M unit := fun w =>
  let res := tg_editMessageText env (length (trace w)) body chat msg mode in
  let w' := record (EvEditMessageText body chat msg mode res) w in
  match res with
  | Some e => (Thrown e, w')
  | None => (Returned tt, w')
  end.

Definition redis_get (key : string) : M (option string) := fun w =>
  let res := redis w !! key in
  (Returned res, record (EvRedisGet key res) w).

Definition redis_set (key value : string) : M unit := fun w =>
  (Returned tt,
   {| redis := <[key := value]> (redis w);
      trace := trace w ++ [EvRedisSet key value] |}).

Definition completions_create (model : string) (messages : list Turn) : M Completion :=
  fun w =>
  let res := openai_create env (length (trace w)) model messages in
  let w' := record (EvCompletion model messages res) w in
  match res with
  | inl e => (Thrown e, w')
  | inr r => (Returned r, w')
  end.

Definition getOpenAIReply (overrideModel : string) (params : list Turn)
    : M (option string) :=
  resp ← completions_create overrideModel params;
  mret (assemble_reply resp).

Definition updateContext (context_id : string) (context : ChatContext) : M unit :=
  redis_set context_id (JSON.stringify context).

Definition linkMessageWithContext (message_id context_id : string) : M unit :=
  redis_set message_id context_id.

(** One iteration of the second loop of [doWriteReply], for the part of
    index [i]; the result is the value of [prevmsg] after it. *)
Definition deliver_part (i : nat) (part : string) (respmsg prevmsg : Message)
    (context_id : string) : M Message :=
  let chatid := chat_id respmsg in
  if i =? 0 then
    try_catch
      (editMessageText part chatid (message_id respmsg) (Some Markdown))
      (fun e =>
         (* fallback to plaintext *)
         editMessageText part chatid (message_id respmsg) None;;
         sendMessage chatid (fallback_notice e) None None;;
         mret tt);;
    mret prevmsg
  else
    prevmsg' ← try_catch
      (sendMessage chatid part (Some (message_id prevmsg)) (Some Markdown))
      (fun e =>
         msg2 ← sendMessage chatid part (Some (message_id prevmsg)) None;
         sendMessage chatid (fallback_notice e) None None;;
         mret msg2);
    linkMessageWithContext (getMessageId prevmsg') context_id;;
    mret prevmsg'.

(** The second loop of [doWriteReply], from index [i] on; [rest] is
    [parts.slice(i)]. *)
Fixpoint write_parts (i : nat) (rest : list string) (respmsg prevmsg : Message)
    (context_id : string) : M unit :=
  match rest with
  | [] => mret tt
  | part :: rest' =>
      prevmsg' ← deliver_part i part respmsg prevmsg context_id;
      write_parts (S i) rest' respmsg prevmsg' context_id
  end.

(** [reply] is [undefined] when the response had no [choices]; reading
    its [length] then throws. *)
Definition doWriteReply (reply : option string) (respmsg : Message)
    (context_id : string) : M unit :=
  match reply with
  | None => throw UNDEFINED_LENGTH
  | Some reply => write_parts 0 (split_parts reply) respmsg respmsg context_id
  end.

(** The [try] block of [doOpenAI]. *)
Definition doOpenAI_try (usermsg : Message) (model : string) (messages : list Turn)
    (context_id : string) : M unit :=
  respmsg ← sendMessage (chat_id usermsg) (waiting_text model)
              (Some (message_id usermsg)) (Some Markdown);
  updateContext context_id {| model := model; params := messages |};;
  linkMessageWithContext (getMessageId respmsg) context_id;;
  reply ← getOpenAIReply model messages;
  doWriteReply reply respmsg context_id.

Definition doOpenAI (usermsg : Message) (model : string) (messages : list Turn)
    (context_id : string) : M unit :=
  try_catch (doOpenAI_try usermsg model messages context_id)
    (fun error => sendMessage (chat_id usermsg) INTERNAL_ERROR None None;; mret tt).

Definition no_context_notice (usermsg : Message) : M unit :=
  sendMessage (chat_id usermsg) NO_CONTEXT (Some (message_id usermsg)) None;;
  mret tt.

(** [redis.get(context_id).then(...)]: [None] stands for [null]. *)
Definition load_context (context_id : string) : M JSON.Parsed :=
  data ← redis_get context_id;
  mret (match data with
        | Some d =>
            if Text.truthy d then
              match JSON_parse d with
              | JSON.Throws => JSON.Falsy
              | p => p
              end
            else JSON.Falsy
        | None => JSON.Falsy
        end).

Definition reply_handler (usermsg : Message) : M unit :=
  match reply_to_message usermsg with
  | None => mret tt
  | Some replied =>
      let identifier := getMessageId replied in
      found ← redis_get identifier;
      match found with
      | Some context_id =>
          if Text.truthy context_id then
            context ← load_context context_id;
            match context with
            | JSON.Throws | JSON.Falsy => no_context_notice usermsg
            | JSON.Shapeless =>
                match text usermsg with
                | None =>
                    sendMessage (chat_id usermsg) NON_TEXT (Some (message_id usermsg)) None;;
                    mret tt
                | Some _ =>
                    throw UNDEFINED_PUSH
                end
            | JSON.Context context =>
                match text usermsg with
                | None =>
                    sendMessage (chat_id usermsg) NON_TEXT (Some (message_id usermsg)) None;;
                    mret tt
                | Some txt =>
                    let params' := params context ++ [{| role := user; content := txt |}] in
                    detached (doOpenAI usermsg (model context) params' context_id)
                end
            end
          else no_context_notice usermsg
      | None => no_context_notice usermsg
      end
  end.

Variable botID : Z.
Variable state : AppState.t.

(** [reply_to_message && reply_to_message.from && from.id === botID] *)
Definition is_replying_to_bot (usermsg : Message) : bool :=
  match reply_to_message usermsg with
  | Some replied =>
      match from_id replied with
      | Some id => Z.eqb id botID
      | None => false
      end
  | None => false
  end.

(** The [message] listener installed by [dispatch].  A match of the
    pattern always has its four entries, so the [length <= 1] branch is
    never taken. *)
Definition on_message (usermsg : Message) : M unit :=
  let chatID := chat_id usermsg in
  if negb (bool_decide (chatID ∈ AppState.whitelist state)) then
    sendMessage chatID "Permission denied" None None;;
    mret tt
  else
    match text usermsg with
    | None => mret tt
    | Some txt =>
        if negb (Text.truthy txt) then mret tt
        else
          match Command.match_MSG_REGEX txt with
          | Some command_payload =>
              let context_id := new_context_id usermsg in
              let messages :=
                [SYSTEM_PRIMER;
                 {| role := user; content := Command.payload command_payload |}] in
              let model :=
                if String.eqb (Command.variant command_payload) "3"
                then "gpt-3.5-turbo" else AppState.model state in
              doOpenAI usermsg model messages context_id
          | None =>
              if is_replying_to_bot usermsg then
                if (Text.startsWith txt "''" || Text.startsWith txt "//")%bool
                then mret tt
                else reply_handler usermsg
              else mret tt
          end
    end.

End Bot.

(** ** Traces *)

(** The effect of one recorded call on the store. *)
Definition apply_event (store : gmap string string) (ev : Event) : gmap string string :=
  match ev with
  | EvRedisSet key value => <[key := value]> store
  | _ => store
  end.

(** The store after the calls [evs], in order.  A crash after a prefix of
    a handler's calls leaves the store of that prefix. *)
Definition replay (evs : list Event) (store : gmap string string) : gmap string string :=
  fold_left apply_event evs store.

(** [w'] is [w] after the calls [evs]. *)
Definition extends (w w' : World) (evs : list Event) : Prop :=
  trace w' = trace w ++ evs /\ redis w' = replay evs (redis w).

Definition is_completion (ev : Event) : bool :=
  match ev with EvCompletion _ _ _ => true | _ => false end.

Definition is_set (ev : Event) : bool :=
  match ev with EvRedisSet _ _ => true | _ => false end.

(** The store key of the message a delivery produced: an accepted
    [sendMessage] that replies to a message gives a new message, an accepted
    [editMessageText] rewrites the message it names. *)
Definition delivered_key (ev : Event) : option string :=
  match ev with
  | EvSendMessage _ _ (Some _) _ (inr m) => Some (getMessageId m)
  | EvEditMessageText _ chat msg _ None =>
      Some (getMessageId (mkMessage chat msg None None None))
  | _ => None
  end.

(** The text a delivery put into the chat. *)
Definition delivered_body (ev : Event) : option string :=
  match ev with
  | EvSendMessage _ body (Some _) _ (inr _) => Some body
  | EvEditMessageText body _ _ _ None => Some body
  | _ => None
  end.


(** The transport call that delivers the part of index [i]: an edit of the
    placeholder for the first part, a reply to [prevmsg] for the others. *)
Definition attempt (i : nat) (part : string) (respmsg prevmsg : Message)
    (mode : option ParseMode) (res : Error + Message) : Event :=
  if i =? 0 then
    EvEditMessageText part (chat_id respmsg) (message_id respmsg) mode
      (match res with inl e => Some e | inr _ => None end)
  else
    EvSendMessage (chat_id respmsg) part (Some (message_id prevmsg)) mode res.

Definition link_events (i : nat) (m : Message) (context_id : string) : list Event :=
  if i =? 0 then [] else [EvRedisSet (getMessageId m) context_id].

Definition next_prevmsg (i : nat) (prevmsg m : Message) : Message :=
  if i =? 0 then prevmsg else m.

(** The calls of one loop iteration and its outcome. *)
Inductive part_run (i : nat) (part : string) (respmsg prevmsg : Message)
    (context_id : string) : list Event -> Outcome Message -> Prop :=
| part_markdown (m : Message) :
    part_run i part respmsg prevmsg context_id
      (attempt i part respmsg prevmsg (Some Markdown) (inr m)
         :: link_events i m context_id)
      (Returned (next_prevmsg i prevmsg m))
| part_plain (e : Error) (m n : Message) :
    part_run i part respmsg prevmsg context_id
      (attempt i part respmsg prevmsg (Some Markdown) (inl e)
         :: attempt i part respmsg prevmsg None (inr m)
         :: EvSendMessage (chat_id respmsg) (fallback_notice e) None None (inr n)
         :: link_events i m context_id)
      (Returned (next_prevmsg i prevmsg m))
| part_plain_refused (e e' : Error) :
    part_run i part respmsg prevmsg context_id
      [attempt i part respmsg prevmsg (Some Markdown) (inl e);
       attempt i part respmsg prevmsg None (inl e')]
      (Thrown e')
| part_notice_refused (e e' : Error) (m : Message) :
    part_run i part respmsg prevmsg context_id
      [attempt i part respmsg prevmsg (Some Markdown) (inl e);
       attempt i part respmsg prevmsg None (inr m);
       EvSendMessage (chat_id respmsg) (fallback_notice e) None None (inl e')]
      (Thrown e').

(** The calls of the loop from index [i] on. *)
Inductive parts_run (respmsg : Message) (context_id : string)
    : nat -> list string -> Message -> list Event -> Outcome unit -> Prop :=
| parts_done (i : nat) (prevmsg : Message) :
    parts_run respmsg context_id i [] prevmsg [] (Returned tt)
| parts_abort (i : nat) (part : string) (rest : list string) (prevmsg : Message)
    (evs : list Event) (e : Error) :
    part_run i part respmsg prevmsg context_id evs (Thrown e) ->
    parts_run respmsg context_id i (part :: rest) prevmsg evs (Thrown e)
| parts_next (i : nat) (part : string) (rest : list string) (prevmsg prevmsg' : Message)
    (evs evs' : list Event) (r : Outcome unit) :
    part_run i part respmsg prevmsg context_id evs (Returned prevmsg') ->
    parts_run respmsg context_id (S i) rest prevmsg' evs' r ->
    parts_run respmsg context_id i (part :: rest) prevmsg (evs ++ evs') r.

(** The calls of [doOpenAI]'s [try] block after the placeholder is linked. *)
Inductive reply_run (respmsg : Message) (model : string) (messages : list Turn)
    (context_id : string) : list Event -> Outcome unit -> Prop :=
| provider_failed (e : Error) :
    reply_run respmsg model messages context_id
      [EvCompletion model messages (inl e)] (Thrown e)
| provider_undefined (resp : Completion) :
    assemble_reply resp = None ->
    reply_run respmsg model messages context_id
      [EvCompletion model messages (inr resp)] (Thrown UNDEFINED_LENGTH)
| provider_replied (resp : Completion) (reply : string) (evs : list Event)
    (r : Outcome unit) :
    assemble_reply resp = Some reply ->
    parts_run respmsg context_id 0 (split_parts reply) respmsg evs r ->
    reply_run respmsg model messages context_id
      (EvCompletion model messages (inr resp) :: evs) r.

(** The calls of [doOpenAI]'s [try] block. *)
Inductive try_run (usermsg : Message) (model : string) (messages : list Turn)
    (context_id : string) : list Event -> Outcome unit -> Prop :=
| placeholder_refused (e : Error) :
    try_run usermsg model messages context_id
      [EvSendMessage (chat_id usermsg) (waiting_text model)
         (Some (message_id usermsg)) (Some Markdown) (inl e)]
      (Thrown e)
| placeholder_sent (respmsg : Message) (evs : list Event) (r : Outcome unit) :
    reply_run respmsg model messages context_id evs r ->
    try_run usermsg model messages context_id
      (EvSendMessage (chat_id usermsg) (waiting_text model)
         (Some (message_id usermsg)) (Some Markdown) (inr respmsg)
       :: EvRedisSet context_id (JSON.stringify {| model := model; params := messages |})
       :: EvRedisSet (getMessageId respmsg) context_id
       :: evs)
      r.

(** The calls of [doOpenAI]: the [try] block, then the generic notice of the
    [catch] block when the [try] block threw. *)
Inductive open_run (usermsg : Message) (model : string) (messages : list Turn)
    (context_id : string) : list Event -> Outcome unit -> Prop :=
| open_completed (evs : list Event) :
    try_run usermsg model messages context_id evs (Returned tt) ->
    open_run usermsg model messages context_id evs (Returned tt)
| open_caught (evs : list Event) (e : Error) (res : Error + Message) :
    try_run usermsg model messages context_id evs (Thrown e) ->
    open_run usermsg model messages context_id
      (evs ++ [EvSendMessage (chat_id usermsg) INTERNAL_ERROR None None res])
      (match res with inl e' => Thrown e' | inr _ => Returned tt end).

(** The error of a delivery the transport refused in Markdown mode. *)
Definition refused_markdown (ev : Event) : option Error :=
  match ev with
  | EvSendMessage _ _ (Some _) (Some Markdown) (inl e) => Some e
  | EvEditMessageText _ _ _ (Some Markdown) (Some e) => Some e
  | _ => None
  end.

(** The text of a delivery tried in Markdown mode. *)
Definition markdown_body (ev : Event) : option string :=
  match ev with
  | EvSendMessage _ body (Some _) (Some Markdown) _ => Some body
  | EvEditMessageText body _ _ (Some Markdown) _ => Some body
  | _ => None
  end.

(** A delivery tried without a parse mode. *)
Definition is_plain_attempt (ev : Event) : bool :=
  match ev with
  | EvSendMessage _ _ (Some _) None _ => true
  | EvEditMessageText _ _ _ None _ => true
  | _ => false
  end.

(** [ev'] is the call [ev] made again without a parse mode: the same
    text to the same target. *)
Definition plain_retry (ev ev' : Event) : Prop :=
  match ev, ev' with
  | EvSendMessage chat body reply_to _ _, EvSendMessage chat' body' reply_to' None _ =>
      chat' = chat /\ body' = body /\ reply_to' = reply_to
  | EvEditMessageText body chat msg _ _, EvEditMessageText body' chat' msg' None _ =>
      body' = body /\ chat' = chat /\ msg' = msg
  | _, _ => False
  end.

(** The service answered the call without an error. *)
Definition accepted (ev : Event) : bool :=
  match ev with
  | EvSendMessage _ _ _ _ (inl _) => false
  | EvEditMessageText _ _ _ _ (Some _) => false
  | EvCompletion _ _ (inl _) => false
  | _ => true
  end.

(** The first call of [doOpenAI], with the answer of the transport. *)
Definition placeholder_call (env : Env) (usermsg : Message) (model : string)
    (w : World) : Event :=
  EvSendMessage (chat_id usermsg) (waiting_text model)
    (Some (message_id usermsg)) (Some Markdown)
    (tg_sendMessage env (length (trace w)) (chat_id usermsg) (waiting_text model)
       (Some (message_id usermsg)) (Some Markdown)).


Definition is_get (ev : Event) : bool :=
  match ev with EvRedisGet _ _ => true | _ => false end.

(** ** Proof automation for runs *)

Ltac monad_unfold :=
  unfold linkMessageWithContext, updateContext in *;
  unfold mbind, mret, M_bind, M_ret, try_catch, throw, detached,
    sendMessage, editMessageText, redis_get, redis_set, completions_create,
    record in *; cbn [fst snd trace redis] in *.

Ltac solve_extends :=
  split; cbn [fst snd trace redis];
  [ rewrite <- ?app_assoc; reflexivity | reflexivity ].

(** Membership of an event in an explicit trace. *)
Ltac find_event :=
  repeat first [ apply list_elem_of_here | apply list_elem_of_further ].

(** ** Reachable stores *)

(** The stores the bot can leave: from the empty store, any number of
    updates handled one after the other, each in any environment. *)
Inductive reachable (JSON_parse : string -> JSON.Parsed) : gmap string string -> Prop :=
| reach_empty : reachable JSON_parse ∅
| reach_update (store : gmap string string) (env : Env) (botID : Z) (state : AppState.t)
    (usermsg : Message) (calls : list Event) :
    reachable JSON_parse store ->
    reachable JSON_parse
      (redis (on_message env JSON_parse botID state usermsg
                {| redis := store; trace := calls |}).2).

Definition user_turn (txt : string) : Turn := {| role := user; content := txt |}.

Definition role_eqb (a b : Role) : bool :=
  match a, b with
  | system, system | user, user | assistant, assistant => true
  | _, _ => false
  end.

(** The turns alternate, starting with a turn of [expected]. *)
Fixpoint alternates_from (expected : Role) (turns : list Turn) : bool :=
  match turns with
  | [] => true
  | t :: turns' =>
      role_eqb (role t) expected
      && alternates_from (match expected with user => assistant | _ => user end) turns'
  end.

(** A system turn, then user and assistant turns in strict alternation. *)
Definition strictly_alternates (turns : list Turn) : bool :=
  match turns with
  | [] => false
  | t :: turns' => role_eqb (role t) system && alternates_from user turns'
  end.

(** ** Concrete executions *)

Module Example.

Definition botID : Z := 7%Z.

Definition state : AppState.t :=
  {| AppState.whitelist := [100%Z]; AppState.model := "gpt-4-turbo-preview" |}.

(** The message the transport creates for its [n]-th call. *)
Definition sent (n : nat) (chat : Z) (body : string) : Message :=
  mkMessage chat (1000 + Z.of_nat n) (Some botID) (Some body) None.

Definition refusal : Error := {| err_message := "Bad Request: can't parse entities" |}.

Definition one_choice (answer : string) : Completion :=
  {| choices := Some [{| message := Some (CString answer) |}] |}.

(** Every call is accepted; the provider answers [answer]. *)
Definition env (answer : string) : Env :=
  {| tg_sendMessage := fun n chat body _ _ => inr (sent n chat body);
     tg_editMessageText := fun _ _ _ _ _ => None;
     openai_create := fun _ _ _ => inr (one_choice answer) |}.

(** Markdown is refused, plain text is accepted. *)
Definition env_plain (answer : string) : Env :=
  {| tg_sendMessage := fun n chat body _ mode =>
       match mode with
       | Some Markdown =>
           if String.eqb body (waiting_text "gpt-4-turbo-preview")
           then inr (sent n chat body) else inl refusal
       | None => inr (sent n chat body)
       end;
     tg_editMessageText := fun _ _ _ _ mode =>
       match mode with Some Markdown => Some refusal | None => None end;
     openai_create := fun _ _ _ => inr (one_choice answer) |}.

(** As [env_plain], and the fallback notice is refused as well. *)
Definition env_no_notice (answer : string) : Env :=
  {| tg_sendMessage := fun n chat body reply_to mode =>
       match reply_to, mode with
       | Some _, Some Markdown =>
           if String.eqb body (waiting_text "gpt-4-turbo-preview")
           then inr (sent n chat body) else inl refusal
       | Some _, None => inr (sent n chat body)
       | None, _ => inl refusal
       end;
     tg_editMessageText := fun _ _ _ _ _ => None;
     openai_create := fun _ _ _ => inr (one_choice answer) |}.

Definition start : World := {| redis := ∅; trace := [] |}.

(** Scenario A: [/openai hello] as message 55 of chat 100. *)
Definition command : Message :=
  mkMessage 100 55 (Some 1%Z) (Some "/openai hello") None.

Definition after_command : World :=
  (on_message (env "hi there") Reader.parse botID state command start).2.

(** Scenario B: a reply to the bot's answer, which is message 1000. *)
Definition continuation : Message :=
  mkMessage 100 56 (Some 1%Z) (Some "tell me more")
    (Some (mkMessage 100 1000 (Some botID) None None)).

Definition after_continuation : World :=
  (on_message (env "more") Reader.parse botID state continuation after_command).2.

(** A reply to a message of the bot that no context was linked to. *)
Definition stray_reply : Message :=
  mkMessage 100 57 (Some 1%Z) (Some "and then?")
    (Some (mkMessage 100 4242 (Some botID) None None)).


Definition turns_A : list Turn :=
  [SYSTEM_PRIMER; {| role := user; content := "hello" |}].

Definition context_A : ChatContext :=
  {| params := turns_A; model := "gpt-4-turbo-preview" |}.

Definition context_B : ChatContext :=
  {| params := turns_A ++ [{| role := user; content := "tell me more" |}];
     model := "gpt-4-turbo-preview" |}.

Fixpoint repeated (n : nat) (c : ascii) : string :=
  match n with
  | 0 => EmptyString
  | S n' => String c (repeated n' c)
  end.

(** A provider answer that makes a reply of 5000 code units. *)
Definition long_answer : string := repeated 4999 "a".

(** A provider answer that makes a reply of two fragments. *)
Definition two_parts : string := repeated 2999 "a".

(** The placeholder of the first update. *)
Definition placeholder : Message := sent 0 100 (waiting_text "gpt-4-turbo-preview").

End Example.

(** The command message of scenario A, whoever sent it. *)
Definition scenario_A_message (sender : option Z) (replied : option Message) : Message :=
  mkMessage 100 55 sender (Some "/openai hello") replied.

(** The system primer followed by user turns, at least one. *)
Definition user_turns_only (turns : list Turn) : Prop :=
  exists us, turns = SYSTEM_PRIMER :: map user_turn us /\ us <> [].

(** What the bot writes: a link from a message key to a context id, or a
    context of user turns under a context id. *)
Definition good_entry (key value : string) : Prop :=
  (Text.startsWith key "msgid:" = true /\ Text.startsWith value "ctx:" = true)
  \/ (Text.startsWith key "ctx:" = true
      /\ exists c, value = JSON.stringify c /\ user_turns_only (params c)).

Definition well_formed (store : gmap string string) : Prop :=
  forall key value, store !! key = Some value -> good_entry key value.

(** The three ways an update can go: no write at all, a new conversation,
    or a continuation of a stored one. *)
Definition update_shape (JSON_parse : string -> JSON.Parsed) (usermsg : Message)
    (store : gmap string string) (evs : list Event) : Prop :=
  (forall ev, ev ∈ evs -> is_set ev = false)
  \/ (exists model payload r,
        open_run usermsg model [SYSTEM_PRIMER; user_turn payload]
          (new_context_id usermsg) evs r)
  \/ (exists replied context_id data c txt reads evs0 r,
        reply_to_message usermsg = Some replied
        /\ store !! getMessageId replied = Some context_id
        /\ store !! context_id = Some data
        /\ JSON_parse data = JSON.Context c
        /\ evs = reads ++ evs0
        /\ (forall ev, ev ∈ reads -> is_set ev = false)
        /\ open_run usermsg (model c) (params c ++ [user_turn txt]) context_id evs0 r).

(** ** Decimal texts *)

Definition is_digit (c : ascii) : bool :=
  let n := nat_of_ascii c in (48 <=? n) && (n <=? 57).

Fixpoint all_digits (s : string) : bool :=
  match s with
  | EmptyString => true
  | String c s' => is_digit c && all_digits s'
  end.

(** The longest prefix of decimal digits, and what follows it. *)
Fixpoint span_digits (s : string) : string * string :=
  match s with
  | EmptyString => (EmptyString, EmptyString)
  | String c s' =>
      if is_digit c then
        let '(ds, rest) := span_digits s' in (String c ds, rest)
      else (EmptyString, s)
  end.

(** An optional minus sign and the digits after it, and what follows. *)
Definition span_integer (s : string) : string * string :=
  match s with
  | String "-" s' => let '(ds, rest) := span_digits s' in (String "-" ds, rest)
  | _ => span_digits s
  end.

(** ** The text of a command *)

(** The text an optional group matched: nothing when it did not take part. *)
Definition group_text (g : option string) : string :=
  match g with Some s => s | None => EmptyString end.

(** The text that the pattern matched, from the groups of the match. *)
Definition command_text (g : Command.Groups) : string :=
  "/openai" +:+ Command.variant g +:+ group_text (Command.mention g)
    +:+ " " +:+ Command.payload g.

(** The text before a match ends a line, or is empty. *)
Definition ends_line (before : string) : Prop :=
  before = EmptyString
  \/ exists s c, before = s +:+ String c EmptyString
       /\ Command.is_line_terminator c = true.

(** ** Updates *)

(** The model a command selects: [gpt-3.5-turbo] for the variant [3], the
    configured model otherwise. *)
Definition command_model (state : AppState.t) (g : Command.Groups) : string :=
  if String.eqb (Command.variant g) "3" then "gpt-3.5-turbo" else AppState.model state.

(** The updates that the listener drops: no text, an empty text, a text
    that is neither a command nor a reply to the bot, or a reply to the
    bot that starts with two single quotes or two slashes. *)
Definition dropped (botID : Z) (usermsg : Message) : Prop :=
  match text usermsg with
  | None => True
  | Some txt =>
      txt = EmptyString
      \/ (Command.match_MSG_REGEX txt = None
          /\ (is_replying_to_bot botID usermsg = false
              \/ Text.startsWith txt "''" = true
              \/ Text.startsWith txt "//" = true))
  end.

(** ** Deliveries *)

(** The message id that the next fragment replies to, after the calls
    [evs]: an accepted message that replies to another becomes the one to
    reply to. *)
Fixpoint chain_end (current : Z) (evs : list Event) : Z :=
  match evs with
  | [] => current
  | EvSendMessage _ _ (Some _) _ (inr m) :: evs' => chain_end (message_id m) evs'
  | _ :: evs' => chain_end current evs'
  end.

(** Every message sent as a reply replies to the message sent last as a
    reply and accepted, or to [current] when there is none before it. *)
Fixpoint chain_from (current : Z) (evs : list Event) : bool :=
  match evs with
  | [] => true
  | EvSendMessage _ _ (Some r) _ res :: evs' =>
      Z.eqb r current
      && chain_from (match res with inr m => message_id m | inl _ => current end) evs'
  | _ :: evs' => chain_from current evs'
  end.

(** What a call of [doWriteReply] may be: a message to the chat of the
    placeholder, an edit of the placeholder, or a link to the context id. *)
Definition confined (respmsg : Message) (context_id : string) (ev : Event) : Prop :=
  match ev with
  | EvSendMessage chat _ _ _ _ => chat = chat_id respmsg
  | EvEditMessageText _ chat msg _ _ => chat = chat_id respmsg /\ msg = message_id respmsg
  | EvRedisSet key value => value = context_id /\ exists m, key = getMessageId m
  | EvRedisGet _ _ => False
  | EvCompletion _ _ _ => False
  end.

(** ** Continuations *)

(** [usermsg] is a text reply to a message that is linked, in [store], to
    [context_id], under which [store] holds a value that [JSON.parse] reads
    as the context [c]. *)
Definition continues (JSON_parse : string -> JSON.Parsed) (store : gmap string string)
    (usermsg : Message) (context_id : string) (c : ChatContext) (txt : string) : Prop :=
  exists replied data,
    reply_to_message usermsg = Some replied
    /\ store !! getMessageId replied = Some context_id
    /\ Text.truthy context_id = true
    /\ store !! context_id = Some data
    /\ Text.truthy data = true
    /\ JSON_parse data = JSON.Context c
    /\ text usermsg = Some txt.

(** The context that a continuation sends to the provider and stores. *)
Definition continued (c : ChatContext) (txt : string) : ChatContext :=
  {| model := model c; params := params c ++ [user_turn txt] |}.

(** Every link of the store leads to a stored context. *)
Definition links_resolve (store : gmap string string) : Prop :=
  forall key value, store !! key = Some value ->
    (Text.startsWith key "msgid:" = true
     /\ Text.startsWith value "ctx:" = true
     /\ exists c, store !! value = Some (JSON.stringify c))
    \/ (Text.startsWith key "ctx:" = true /\ exists c, value = JSON.stringify c).

(** [JSON.parse] on the text [5] gives the number 5, a truthy value that
    is not a context; other texts are read by [Reader.parse]. *)
Definition parse_with_five (data : string) : JSON.Parsed :=
  if String.eqb data "5" then JSON.Shapeless else Reader.parse data.

(** The store of [Example.after_command] with the number 5 in place of the
    context. *)
Definition overwritten : World :=
  {| redis := <["ctx:100-55" := "5"]> (redis Example.after_command); trace := [] |}.

(** ** Configuration: [app.ts]

    The pure parts of [run]: reading variables of the process environment (a
    finite map from names to texts) and turning [WHITELIST_CHAT_IDS] into
    the whitelist.  The construction of the two clients is left out. *)

Module App.

(** [None] stands for the exit of the process with status 1. *)
Definition envGetOrAbort (vars : gmap string string) (key : string) : option string :=
  match vars !! key with
  | Some val => if Text.truthy val then Some val else None
  | None => None
  end.

Definition envGetOpenAIModel (vars : gmap string string) : string :=
  match vars !! "OPENAI_MODEL" with
  | Some m => if Text.truthy m then m else "gpt-4-turbo-preview"
  | None => "gpt-4-turbo-preview"
  end.

(** [s.split(sep)] for a separator of one code unit: the pieces between
    the separators, empty ones included; one empty piece for the empty
    text. *)
Fixpoint split (sep : ascii) (s : string) : list string :=
  match s with
  | EmptyString => [EmptyString]
  | String c s' =>
      if Ascii.eqb c sep then EmptyString :: split sep s'
      else
        match split sep s' with
        | piece :: pieces => String c piece :: pieces
        | [] => [String c EmptyString]
        end
  end.

(** The results of [parseInt] that the model tells apart: [NaN], an
    integer that a Number holds exactly, and [Inexact] for a value above
    [2^53], which a Number rounds. *)
Inductive Number :=
| NaN
| Int (z : Z)
| Inexact.

(** White space and line terminators among the 8-bit code units. *)
Definition is_white_space (c : ascii) : bool :=
  let n := nat_of_ascii c in
  (n =? 9) || (n =? 10) || (n =? 11) || (n =? 12) || (n =? 13) || (n =? 32) || (n =? 160).

Fixpoint trim_start (s : string) : string :=
  match s with
  | EmptyString => EmptyString
  | String c s' => if is_white_space c then trim_start s' else s
  end.

(** The sign: a leading minus or plus is removed. *)
Definition strip_sign (s : string) : bool * string :=
  match s with
  | EmptyString => (false, s)
  | String c r =>
      if Ascii.eqb c "-" then (true, r)
      else if Ascii.eqb c "+" then (false, r)
      else (false, s)
  end.

(** The radix: 16 after a leading [0x] or [0X], which is removed, and 10
    otherwise. *)
Definition strip_prefix_0x (s : string) : N * string :=
  match s with
  | String a (String b r) =>
      if Ascii.eqb a "0" && (Ascii.eqb b "x" || Ascii.eqb b "X") then (16%N, r)
      else (10%N, s)
  | _ => (10%N, s)
  end.

(** The value of a code unit as a digit of the radix. *)
Definition digit_of (radix : N) (c : ascii) : option N :=
  let n := N_of_ascii c in
  let value :=
    if (48 <=? n)%N && (n <=? 57)%N then Some (n - 48)%N
    else if (97 <=? n)%N && (n <=? 122)%N then Some (n - 87)%N
    else if (65 <=? n)%N && (n <=? 90)%N then Some (n - 55)%N
    else None in
  match value with
  | Some d => if (d <? radix)%N then Some d else None
  | None => None
  end.

(** The value of the longest prefix of digits; [acc] is the value of the
    digits read so far, [None] when there is none yet. *)
Fixpoint read_digits (radix : N) (acc : option N) (s : string) : option N :=
  match s with
  | EmptyString => acc
  | String c s' =>
      match digit_of radix c with
      | Some d =>
          read_digits radix
            (Some (match acc with Some a => a * radix + d | None => d end)%N) s'
      | None => acc
      end
  end.

(** [parseInt(s)], without a radix argument. *)
Definition parseInt (s : string) : Number :=
  let '(negative, s1) := strip_sign (trim_start s) in
  let '(radix, s2) := strip_prefix_0x s1 in
  match read_digits radix None s2 with
  | None => NaN
  | Some v =>
      if (v <=? 2 ^ 53)%N
      then Int (if negative then - Z.of_N v else Z.of_N v)
      else Inexact
  end.

(** [ids.split(",").map((elem) => parseInt(elem))] *)
Definition parse_whitelist (ids : string) : list Number :=
  map parseInt (split "," ids).

(** The chat ids that [whitelist.includes(chatID)] accepts: an entry that
    is [NaN] equals no chat id, and neither does an inexact one, chat ids
    being integers that a Number holds exactly. *)
Definition granted (whitelist : list Number) : list Z :=
  omap (fun n => match n with Int z => Some z | _ => None end) whitelist.

(** The whitelist written as a text: decimal ids separated by commas. *)
Fixpoint join_ids (ids : list Z) : string :=
  match ids with
  | [] => EmptyString
  | [z] => pretty z
  | z :: ids' => pretty z +:+ "," +:+ join_ids ids'
  end.

(** What may follow the decimal text of [z] for [parseInt] to stop there:
    nothing, or a code unit that is not a digit, and not an [x] after a
    lone zero. *)
Definition ends_number (z : Z) (rest : string) : Prop :=
  match rest with
  | EmptyString => True
  | String c _ =>
      is_digit c = false /\ (z = 0%Z -> c <> "x"%char /\ c <> "X"%char)
  end.

Fixpoint all_white_space (s : string) : bool :=
  match s with
  | EmptyString => true
  | String c s' => is_white_space c && all_white_space s'
  end.

End App.

(** ** Chunking is complete *)

Lemma PART_SIZE_value : PART_SIZE = 2048.
Proof. reflexivity. Qed.

Lemma PART_SIZE_pos : 0 < PART_SIZE.
Proof. unfold PART_SIZE. lia. Qed.

Section Chunking.

Opaque PART_SIZE.

Lemma substring_forward (i n : nat) (s : string) :
  Text.substring i (i + n) s = String.substring i n s.
Proof.
  unfold Text.substring.
  replace (Nat.min i (i + n)) with i by lia.
  replace (Nat.max i (i + n) - i) with n by lia.
  reflexivity.
Qed.

Lemma substring_length_le (i n : nat) (s : string) :
  String.length (String.substring i n s) <= n.
Proof.
  revert i n. induction s as [|c s IH]; intros [|i] [|n]; simpl; try lia.
  - specialize (IH 0 n). lia.
  - apply IH.
  - apply IH.
Qed.

Lemma drop_all (i : nat) (s : string) :
  String.length s <= i -> Text.drop i s = EmptyString.
Proof.
  revert s. induction i as [|i IH]; intros [|c s]; simpl; intros H; auto; try lia.
  apply IH. lia.
Qed.

Lemma substring_drop (i n : nat) (s : string) :
  String.substring i n s +:+ Text.drop (i + n) s = Text.drop i s.
Proof.
  revert s n. induction i as [|i IH]; intros s n.
  - simpl. revert s. induction n as [|n IHn]; intros [|c s]; simpl; auto.
    change (String c (String.substring 0 n s +:+ Text.drop n s) = String c s).
    f_equal. apply IHn.
  - destruct s as [|c s]; simpl.
    + destruct n; reflexivity.
    + apply IH.
Qed.

Lemma parts_loop_concat (fuel : nat) (s : string) (i : nat) :
  String.length s - i <= fuel ->
  Text.concat (parts_loop fuel s i) = Text.drop i s.
Proof.
  pose proof PART_SIZE_pos as Hp.
  revert i. induction fuel as [|fuel IH]; intros i Hf; simpl.
  - symmetry. apply drop_all. lia.
  - destruct (Nat.ltb_spec i (String.length s)) as [Hlt|Hge]; simpl.
    + rewrite IH by lia. rewrite substring_forward. apply substring_drop.
    + symmetry. apply drop_all. lia.
Qed.

Lemma parts_loop_lookup (fuel : nat) (s : string) (i k : nat) (f : string) :
  parts_loop fuel s i !! k = Some f ->
  f = Text.substring (i + k * PART_SIZE) (i + k * PART_SIZE + PART_SIZE) s
  /\ i + k * PART_SIZE < String.length s.
Proof.
  revert i k. induction fuel as [|fuel IH]; intros i k; simpl.
  - intros H. discriminate.
  - destruct (Nat.ltb_spec i (String.length s)) as [Hlt|Hge]; [|intros H; discriminate].
    destruct k as [|k]; simpl.
    + intros [= <-]. rewrite Nat.add_0_r. auto.
    + intros H. apply IH in H.
      replace (i + (PART_SIZE + k * PART_SIZE)) with (i + PART_SIZE + k * PART_SIZE) by lia.
      exact H.
Qed.

Lemma parts_loop_bounded (fuel : nat) (s : string) (i : nat) :
  Forall (fun f => String.length f <= PART_SIZE) (parts_loop fuel s i).
Proof.
  revert i. induction fuel as [|fuel IH]; intros i; simpl.
  - constructor.
  - destruct (i <? String.length s); constructor.
    + rewrite substring_forward. apply substring_length_le.
    + apply IH.
Qed.

Lemma parts_loop_unfold (fuel : nat) (s : string) (i : nat) :
  i < String.length s -> 0 < fuel ->
  parts_loop fuel s i
  = Text.substring i (i + PART_SIZE) s :: parts_loop (fuel - 1) s (i + PART_SIZE).
Proof.
  intros Hi Hf. destruct fuel as [|fuel]; [lia|]. cbn [parts_loop].
  destruct (Nat.ltb_spec i (String.length s)) as [_|Hge]; [|lia].
  replace (S fuel - 1) with fuel by lia. reflexivity.
Qed.

Lemma parts_loop_stop (fuel : nat) (s : string) (i : nat) :
  String.length s <= i -> parts_loop fuel s i = [].
Proof.
  intros Hi. destruct fuel as [|fuel]; [reflexivity|]. cbn [parts_loop].
  destruct (Nat.ltb_spec i (String.length s)) as [Hlt|_]; [lia | reflexivity].
Qed.

Lemma substring_length (i n : nat) (s : string) :
  String.length (String.substring i n s) = Nat.min n (String.length s - i).
Proof.
  revert i n. induction s as [|c s IH]; intros [|i] [|n]; cbn [String.substring String.length];
    try lia.
  - rewrite IH. lia.
  - rewrite IH. cbn [String.length]. lia.
  - rewrite IH. lia.
Qed.

(** A text of 5000 code units is split into three parts. *)
Lemma split_parts_5000 (s : string) :
  String.length s = 5000 ->
  split_parts s
  = [Text.substring 0 PART_SIZE s;
     Text.substring PART_SIZE (PART_SIZE + PART_SIZE) s;
     Text.substring (PART_SIZE + PART_SIZE) (PART_SIZE + PART_SIZE + PART_SIZE) s]
  /\ String.length (Text.substring 0 PART_SIZE s) = 2048
  /\ String.length (Text.substring PART_SIZE (PART_SIZE + PART_SIZE) s) = 2048
  /\ String.length
       (Text.substring (PART_SIZE + PART_SIZE) (PART_SIZE + PART_SIZE + PART_SIZE) s)
     = 904.
Proof.
  intros Hlen.
  pose proof PART_SIZE_value as HP.
  split.
  - unfold split_parts.
    rewrite parts_loop_unfold by lia.
    rewrite parts_loop_unfold by lia.
    rewrite parts_loop_unfold by lia.
    rewrite parts_loop_stop by lia.
    reflexivity.
  - change (Text.substring 0 PART_SIZE s) with (Text.substring 0 (0 + PART_SIZE) s).
    rewrite !substring_forward, !substring_length. lia.
Qed.

Transparent PART_SIZE.

End Chunking.

(** C3. For every text [T], chunking with the fixed size 2048 gives fragments
    of length at most 2048 whose concatenation in order is exactly [T]; the
    fragment of index [k] is the substring of [T] from offset [2048 k] to
    offset [2048 k + 2048] (clamped), so the fragments are contiguous,
    ordered and do not overlap. *)
Theorem split_parts_complete (T : string) :
  PART_SIZE = 2048
  /\ Forall (fun f => String.length f <= PART_SIZE) (split_parts T)
  /\ Text.concat (split_parts T) = T
  /\ forall (k : nat) (f : string), split_parts T !! k = Some f ->
       f = Text.substring (k * PART_SIZE) (k * PART_SIZE + PART_SIZE) T
       /\ k * PART_SIZE < String.length T.
Proof.
  split; [reflexivity|]. split; [apply parts_loop_bounded|]. split.
  - unfold split_parts. rewrite parts_loop_concat by lia. reflexivity.
  - intros k f H. apply parts_loop_lookup in H. exact H.
Qed.

(** ** The assembled reply *)

Section Reply.




End Reply.


Section Runs.
Variable env : Env.

Lemma extends_nil w : extends w w [].
Proof. split; [symmetry; apply app_nil_r | reflexivity]. Qed.

Lemma extends_app w1 w2 w3 evs evs' :
  extends w1 w2 evs -> extends w2 w3 evs' -> extends w1 w3 (evs ++ evs').
Proof.
  intros [Ht Hr] [Ht' Hr']. split.
  - rewrite Ht', Ht, app_assoc. reflexivity.
  - rewrite Hr', Hr. unfold replay. rewrite fold_left_app. reflexivity.
Qed.

Lemma deliver_part_run i part respmsg prevmsg context_id w :
  exists evs,
    extends w (deliver_part env i part respmsg prevmsg context_id w).2 evs
    /\ part_run i part respmsg prevmsg context_id evs
         (deliver_part env i part respmsg prevmsg context_id w).1.
Proof.
  unfold deliver_part.
  destruct (i =? 0) eqn:Hi; monad_unfold.
  - destruct (tg_editMessageText env (length (trace w)) part (chat_id respmsg)
                (message_id respmsg) (Some Markdown)) as [e|] eqn:E1;
      cbn [fst snd trace redis].
    + destruct (tg_editMessageText env _ part (chat_id respmsg)
                  (message_id respmsg) None) as [e'|] eqn:E2; cbn [fst snd trace redis].
      * eexists. split; [solve_extends|].
        pose proof (part_plain_refused i part respmsg prevmsg context_id e e') as P.
        unfold attempt in P. rewrite Hi in P. exact P.
      * destruct (tg_sendMessage env _ (chat_id respmsg) (fallback_notice e) None None)
          as [e'|n] eqn:E3; cbn [fst snd trace redis].
        -- eexists. split; [solve_extends|].
           pose proof (part_notice_refused i part respmsg prevmsg context_id e e' respmsg) as P.
           unfold attempt in P. rewrite Hi in P. exact P.
        -- eexists. split; [solve_extends|].
           pose proof (part_plain i part respmsg prevmsg context_id e respmsg n) as P.
           unfold attempt, link_events, next_prevmsg in P. rewrite Hi in P. exact P.
    + eexists. split; [solve_extends|].
      pose proof (part_markdown i part respmsg prevmsg context_id respmsg) as P.
      unfold attempt, link_events, next_prevmsg in P. rewrite Hi in P. exact P.
  - destruct (tg_sendMessage env (length (trace w)) (chat_id respmsg) part
                (Some (message_id prevmsg)) (Some Markdown)) as [e|m] eqn:E1;
      cbn [fst snd trace redis].
    + destruct (tg_sendMessage env _ (chat_id respmsg) part
                  (Some (message_id prevmsg)) None) as [e'|m] eqn:E2;
        cbn [fst snd trace redis].
      * eexists. split; [solve_extends|].
        pose proof (part_plain_refused i part respmsg prevmsg context_id e e') as P.
        unfold attempt in P. rewrite Hi in P. exact P.
      * destruct (tg_sendMessage env _ (chat_id respmsg) (fallback_notice e) None None)
          as [e'|n] eqn:E3; cbn [fst snd trace redis].
        -- eexists. split; [solve_extends|].
           pose proof (part_notice_refused i part respmsg prevmsg context_id e e' m) as P.
           unfold attempt in P. rewrite Hi in P. exact P.
        -- eexists. split; [solve_extends|].
           pose proof (part_plain i part respmsg prevmsg context_id e m n) as P.
           unfold attempt, link_events, next_prevmsg in P. rewrite Hi in P. exact P.
    + eexists. split; [solve_extends|].
      pose proof (part_markdown i part respmsg prevmsg context_id m) as P.
      unfold attempt, link_events, next_prevmsg in P. rewrite Hi in P. exact P.
Qed.

Lemma write_parts_run respmsg context_id rest :
  forall i prevmsg w,
  exists evs,
    extends w (write_parts env i rest respmsg prevmsg context_id w).2 evs
    /\ parts_run respmsg context_id i rest prevmsg evs
         (write_parts env i rest respmsg prevmsg context_id w).1.
Proof.
  induction rest as [|part rest IH]; intros i prevmsg w.
  - exists []. split; [apply extends_nil | constructor].
  - cbn [write_parts]. unfold mbind, M_bind.
    destruct (deliver_part_run i part respmsg prevmsg context_id w) as (evs & Hext & Hrun).
    destruct (deliver_part env i part respmsg prevmsg context_id w) as [[prevmsg'|e] w1];
      cbn [fst snd] in *.
    + destruct (IH (S i) prevmsg' w1) as (evs' & Hext' & Hrun').
      exists (evs ++ evs'). split.
      * exact (extends_app _ _ _ _ _ Hext Hext').
      * exact (parts_next _ _ _ _ _ _ _ _ _ _ Hrun Hrun').
    + exists evs. split; [assumption|]. apply parts_abort. assumption.
Qed.

Lemma doWriteReply_run reply respmsg context_id w :
  exists evs,
    extends w (doWriteReply env (Some reply) respmsg context_id w).2 evs
    /\ parts_run respmsg context_id 0 (split_parts reply) respmsg evs
         (doWriteReply env (Some reply) respmsg context_id w).1.
Proof. apply write_parts_run. Qed.

Lemma doOpenAI_try_run_head usermsg model messages context_id w :
  exists evs,
    extends w (doOpenAI_try env usermsg model messages context_id w).2 evs
    /\ try_run usermsg model messages context_id evs
         (doOpenAI_try env usermsg model messages context_id w).1
    /\ head evs = Some (placeholder_call env usermsg model w).
Proof.
  unfold placeholder_call, doOpenAI_try, getOpenAIReply. monad_unfold.
  destruct (tg_sendMessage env (length (trace w)) (chat_id usermsg) (waiting_text model)
              (Some (message_id usermsg)) (Some Markdown)) as [e|respmsg];
    cbn [fst snd trace redis].
  { eexists. split; [solve_extends | split; [constructor | reflexivity]]. }
  destruct (openai_create env _ model messages) as [e|resp]; cbn [fst snd trace redis].
  { eexists. split; [solve_extends | split; [repeat constructor | reflexivity]]. }
  destruct (assemble_reply resp) as [reply|] eqn:Hreply.
  - match goal with |- context [doWriteReply env (Some reply) respmsg context_id ?w1] =>
      destruct (doWriteReply_run reply respmsg context_id w1) as (evs & Hext & Hrun);
      set (w2 := w1) in *
    end.
    eexists. split; [|split].
    + eapply (extends_app w w2); [|exact Hext]. subst w2. solve_extends.
    + cbn [app]. apply placeholder_sent. eapply provider_replied; eassumption.
    + reflexivity.
  - unfold doWriteReply, throw. cbn [fst snd trace redis].
    eexists. split; [solve_extends|]. split; [|reflexivity].
    apply placeholder_sent. apply provider_undefined. assumption.
Qed.

Lemma doOpenAI_try_run usermsg model messages context_id w :
  exists evs,
    extends w (doOpenAI_try env usermsg model messages context_id w).2 evs
    /\ try_run usermsg model messages context_id evs
         (doOpenAI_try env usermsg model messages context_id w).1.
Proof.
  destruct (doOpenAI_try_run_head usermsg model messages context_id w)
    as (evs & Hext & Hrun & _).
  eauto.
Qed.

Lemma doOpenAI_run_head usermsg model messages context_id w :
  exists evs,
    extends w (doOpenAI env usermsg model messages context_id w).2 evs
    /\ open_run usermsg model messages context_id evs
         (doOpenAI env usermsg model messages context_id w).1
    /\ head evs = Some (placeholder_call env usermsg model w).
Proof.
  unfold doOpenAI, try_catch.
  destruct (doOpenAI_try_run_head usermsg model messages context_id w)
    as (evs & Hext & Hrun & Hhead).
  destruct (doOpenAI_try env usermsg model messages context_id w) as [[[]|e] w1];
    cbn [fst snd] in *.
  - exists evs. split; [assumption | split; [constructor|]; assumption].
  - assert (forall tail, head (evs ++ tail) = Some (placeholder_call env usermsg model w)) as Hh.
    { intros tail. destruct evs; [discriminate Hhead | exact Hhead]. }
    monad_unfold.
    destruct (tg_sendMessage env (length (trace w1)) (chat_id usermsg) INTERNAL_ERROR
                None None) as [e'|m] eqn:E; cbn [fst snd trace redis].
    + eexists. split; [|split].
      * eapply (extends_app w w1); [exact Hext|]. solve_extends.
      * apply (open_caught usermsg model messages context_id evs e (inl e')).
        assumption.
      * apply Hh.
    + eexists. split; [|split].
      * eapply (extends_app w w1); [exact Hext|]. solve_extends.
      * apply (open_caught usermsg model messages context_id evs e (inr m)).
        assumption.
      * apply Hh.
Qed.

Lemma doOpenAI_run usermsg model messages context_id w :
  exists evs,
    extends w (doOpenAI env usermsg model messages context_id w).2 evs
    /\ open_run usermsg model messages context_id evs
         (doOpenAI env usermsg model messages context_id w).1.
Proof.
  destruct (doOpenAI_run_head usermsg model messages context_id w)
    as (evs & Hext & Hrun & _).
  eauto.
Qed.

End Runs.

(** ** The reader inverts [JSON.stringify] *)

Section ReaderRoundTrip.

Import Reader.

Lemma append_cons (x : ascii) (a b : string) : String x a +:+ b = String x (a +:+ b).
Proof. reflexivity. Qed.

Lemma append_empty (b : string) : EmptyString +:+ b = b.
Proof. reflexivity. Qed.

Lemma append_assoc (a b c : string) : (a +:+ b) +:+ c = a +:+ (b +:+ c).
Proof.
  induction a as [|x a IH]; [reflexivity|].
  rewrite !append_cons, IH. reflexivity.
Qed.

Lemma append_nil_r (a : string) : a +:+ EmptyString = a.
Proof.
  induction a as [|x a IH]; [reflexivity|].
  rewrite append_cons, IH. reflexivity.
Qed.

Lemma snoc_append (acc : string) (c : ascii) (s : string) :
  snoc acc c +:+ s = acc +:+ String c s.
Proof. unfold snoc. rewrite append_assoc. reflexivity. Qed.

Lemma lex_escape_char (c : ascii) (acc rest : string) :
  lex (InString acc) (JSON.escape_char c +:+ rest) = lex (InString (snoc acc c)) rest.
Proof.
  destruct c as [[] [] [] [] [] [] [] []]; reflexivity.
Qed.

Lemma lex_escape (s : string) : forall (acc rest : string),
  lex (InString acc) (JSON.escape s +:+ String JSON.dquote rest)
  = cons (TString (acc +:+ s)) <$> lex Outside rest.
Proof.
  induction s as [|c s IH]; intros acc rest.
  - rewrite append_nil_r. reflexivity.
  - cbn [JSON.escape]. rewrite append_assoc, lex_escape_char, IH, snoc_append.
    reflexivity.
Qed.

Lemma lex_quote (s rest : string) :
  lex Outside (JSON.quote s +:+ rest) = cons (TString s) <$> lex Outside rest.
Proof.
  unfold JSON.quote. rewrite append_cons, append_assoc, append_cons, append_empty.
  apply (lex_escape s EmptyString rest).
Qed.

Lemma lex_punctuation (c : ascii) (t : Token) (rest : string) :
  punctuation c = Some t ->
  lex Outside (String c rest) = cons t <$> lex Outside rest.
Proof.
  intros H. cbn [lex].
  destruct c as [[] [] [] [] [] [] [] []]; try discriminate H;
    injection H as <-; reflexivity.
Qed.

Ltac lex_step :=
  first
    [ rewrite lex_quote
    | erewrite lex_punctuation; [|reflexivity] ].

Lemma lex_turn (t : Turn) (rest : string) :
  lex Outside (JSON.turn t +:+ rest) = app (turn_tokens t) <$> lex Outside rest.
Proof.
  unfold JSON.turn. rewrite ?append_assoc, ?append_cons, ?append_empty.
  repeat lex_step.
  destruct (lex Outside rest); reflexivity.
Qed.

Lemma lex_turns (l : list Turn) (rest : string) :
  lex Outside (JSON.turns l +:+ rest) = app (turns_tokens l) <$> lex Outside rest.
Proof.
  induction l as [|t l IH].
  - rewrite append_empty. destruct (lex Outside rest); reflexivity.
  - destruct l as [|t' l].
    + apply lex_turn.
    + change (JSON.turns (t :: t' :: l))
        with (JSON.turn t +:+ "," +:+ JSON.turns (t' :: l)).
      change (turns_tokens (t :: t' :: l))
        with (turn_tokens t ++ TComma :: turns_tokens (t' :: l)).
      rewrite !append_assoc, lex_turn, append_cons, append_empty.
      lex_step. rewrite IH.
      destruct (lex Outside rest); [|reflexivity].
      unfold fmap, option_fmap, option_map. rewrite <- app_assoc. reflexivity.
Qed.

Lemma lex_stringify (c : ChatContext) :
  lex Outside (JSON.stringify c) = Some (context_tokens c).
Proof.
  unfold JSON.stringify. rewrite ?append_assoc, ?append_cons, ?append_empty.
  repeat lex_step. rewrite lex_turns. repeat lex_step. reflexivity.
Qed.

Lemma role_of_name (r : Role) : role_of (JSON.role_name r) = Some r.
Proof. destruct r; reflexivity. Qed.

Lemma read_turns_tokens (t : Turn) (l : list Turn) (rest : list Token) :
  read_turns (turns_tokens (t :: l) ++ TRBracket :: rest) = Some (t :: l, rest).
Proof.
  revert t. induction l as [|t' l IH]; intros t.
  - destruct t as [r c]. cbn. rewrite role_of_name. reflexivity.
  - change (turns_tokens (t :: t' :: l))
      with (turn_tokens t ++ TComma :: turns_tokens (t' :: l)).
    destruct t as [r c]. rewrite <- app_assoc.
    cbn -[turns_tokens]. rewrite role_of_name.
    change (turns_tokens (t' :: l) ++ TRBracket :: rest)
      with (turns_tokens (t' :: l) ++ TRBracket :: rest).
    rewrite IH. reflexivity.
Qed.

Lemma turns_tokens_head (t : Turn) (l : list Turn) :
  exists tail, turns_tokens (t :: l) = TLBrace :: tail.
Proof. destruct l; eexists; reflexivity. Qed.

Lemma read_context_tokens (c : ChatContext) :
  read_context (context_tokens c) = Some c.
Proof.
  destruct c as [ps m]. unfold context_tokens. cbn [params model].
  destruct ps as [|t l]; [reflexivity|].
  pose proof (read_turns_tokens t l [TRBrace]) as H.
  destruct (turns_tokens_head t l) as [tail E]. rewrite E in H |- *.
  cbn -[read_turns]. cbn [app] in H. rewrite H. reflexivity.
Qed.

Lemma parse_stringify (c : ChatContext) :
  Reader.parse (JSON.stringify c) = JSON.Context c.
Proof.
  unfold Reader.parse.
  replace (String.eqb (JSON.stringify c) "null") with false.
  - rewrite lex_stringify, read_context_tokens. reflexivity.
  - symmetry. apply String.eqb_neq. intros H. discriminate H.
Qed.
End ReaderRoundTrip.

(** ** Store writes of a run *)

Section Writes.

Lemma getMessageId_prefix (m : Message) :
  Text.startsWith (getMessageId m) "msgid:" = true.
Proof. reflexivity. Qed.

Lemma replay_app (evs evs' : list Event) (store : gmap string string) :
  replay (evs ++ evs') store = replay evs' (replay evs store).
Proof. unfold replay. apply fold_left_app. Qed.

Lemma replay_is_Some (evs : list Event) : forall (store : gmap string string) (key : string),
  is_Some (store !! key) -> is_Some (replay evs store !! key).
Proof.
  induction evs as [|ev evs IH]; intros store key H; [exact H|].
  cbn [replay fold_left]. apply IH. destruct ev; cbn [apply_event]; try exact H.
  destruct (decide (key0 = key)) as [->|Hne].
  - rewrite lookup_insert_eq. eauto.
  - rewrite lookup_insert_ne by exact Hne. exact H.
Qed.

(** Writes to other keys leave a key as it was. *)
Lemma replay_other_keys (evs : list Event) : forall (store : gmap string string) (key : string),
  (forall k v, EvRedisSet k v ∈ evs -> k <> key) ->
  replay evs store !! key = store !! key.
Proof.
  induction evs as [|ev evs IH]; intros store key H; [reflexivity|].
  cbn [replay fold_left]. fold (replay evs (apply_event store ev)).
  rewrite IH.
  - destruct ev; cbn [apply_event]; try reflexivity.
    apply lookup_insert_ne. apply (H key0 value). left.
  - intros k v Hin. apply (H k v). right. exact Hin.
Qed.

(** When every write stores [value], a written key holds [value]. *)
Lemma replay_same_value (evs : list Event) (value : string) :
  forall (store : gmap string string) (key : string),
  (forall k v, EvRedisSet k v ∈ evs -> v = value) ->
  EvRedisSet key value ∈ evs \/ store !! key = Some value ->
  replay evs store !! key = Some value.
Proof.
  induction evs as [|ev evs IH]; intros store key Hall H.
  - destruct H as [H|H]; [inversion H | exact H].
  - cbn [replay fold_left]. fold (replay evs (apply_event store ev)).
    apply IH.
    + intros k v Hin. apply (Hall k v). right. exact Hin.
    + destruct H as [H|H].
      * apply elem_of_cons in H as [<-|H]; [|left; exact H].
        right. cbn [apply_event]. apply lookup_insert_eq.
      * destruct ev; cbn [apply_event]; try (right; exact H).
        right. destruct (decide (key0 = key)) as [->|Hne].
        -- rewrite lookup_insert_eq. f_equal. apply (Hall key value0). left.
        -- rewrite lookup_insert_ne by exact Hne. exact H.
Qed.

Lemma part_run_writes i part respmsg prevmsg context_id evs r :
  part_run i part respmsg prevmsg context_id evs r ->
  forall k v, EvRedisSet k v ∈ evs -> (exists m, k = getMessageId m) /\ v = context_id.
Proof.
  intros H k v Hin.
  destruct H; unfold attempt, link_events in Hin; destruct (i =? 0);
    repeat (apply elem_of_cons in Hin as [Hin|Hin]; [try discriminate Hin|]);
    try (inversion Hin; fail);
    injection Hin as -> ->; eauto.
Qed.

Lemma parts_run_writes respmsg context_id i rest prevmsg evs r :
  parts_run respmsg context_id i rest prevmsg evs r ->
  forall k v, EvRedisSet k v ∈ evs -> (exists m, k = getMessageId m) /\ v = context_id.
Proof.
  induction 1 as [| i part rest prevmsg evs e Hp | i part rest prevmsg prevmsg' evs evs' r Hp Hr IH];
    intros k v Hin.
  - inversion Hin.
  - eapply part_run_writes; eassumption.
  - apply elem_of_app in Hin as [Hin|Hin].
    + eapply part_run_writes; eassumption.
    + apply IH. exact Hin.
Qed.

Lemma parts_run_no_completion respmsg context_id i rest prevmsg evs r :
  parts_run respmsg context_id i rest prevmsg evs r ->
  forall ev, ev ∈ evs -> is_completion ev = false.
Proof.
  induction 1 as [| i part rest prevmsg evs e Hp | i part rest prevmsg prevmsg' evs evs' r Hp Hr IH];
    intros ev Hin.
  - inversion Hin.
  - destruct Hp; unfold attempt, link_events in Hin; destruct (i =? 0);
      repeat (apply elem_of_cons in Hin as [->|Hin]; [reflexivity|]); inversion Hin.
  - apply elem_of_app in Hin as [Hin|Hin]; [|apply IH; exact Hin].
    destruct Hp; unfold attempt, link_events in Hin; destruct (i =? 0);
      repeat (apply elem_of_cons in Hin as [->|Hin]; [reflexivity|]); inversion Hin.
Qed.

End Writes.

(** ** The order of the calls of [doOpenAI] *)

Section Ordering.

Lemma try_run_cases usermsg model messages context_id evs r :
  try_run usermsg model messages context_id evs r ->
  (exists e,
      evs = [EvSendMessage (chat_id usermsg) (waiting_text model)
               (Some (message_id usermsg)) (Some Markdown) (inl e)]
      /\ r = Thrown e)
  \/ (exists respmsg res rest,
        evs = EvSendMessage (chat_id usermsg) (waiting_text model)
                (Some (message_id usermsg)) (Some Markdown) (inr respmsg)
              :: EvRedisSet context_id (JSON.stringify {| model := model; params := messages |})
              :: EvRedisSet (getMessageId respmsg) context_id
              :: EvCompletion model messages res
              :: rest
        /\ (forall ev, ev ∈ rest -> is_completion ev = false)
        /\ (forall k v, EvRedisSet k v ∈ rest ->
              (exists m, k = getMessageId m) /\ v = context_id)).
Proof.
  intros [e | respmsg tail r' Hreply]; [left; eauto|].
  right. destruct Hreply as [e | resp Hnone | resp reply tail Hsome Hparts].
  - exists respmsg, (inl e), []. split; [reflexivity|].
    split; intros; match goal with H : _ ∈ [] |- _ => inversion H end.
  - exists respmsg, (inr resp), []. split; [reflexivity|].
    split; intros; match goal with H : _ ∈ [] |- _ => inversion H end.
  - exists respmsg, (inr resp), tail. split; [reflexivity|]. split.
    + eapply parts_run_no_completion; eassumption.
    + eapply parts_run_writes; eassumption.
Qed.

(** The calls of [doOpenAI] are those of its [try] block, followed by at
    most one notice. *)
Lemma open_run_cases usermsg model messages context_id evs r :
  open_run usermsg model messages context_id evs r ->
  exists evs0 r0 notice,
    try_run usermsg model messages context_id evs0 r0
    /\ evs = evs0 ++ notice
    /\ (notice = [] \/ exists res,
          notice = [EvSendMessage (chat_id usermsg) INTERNAL_ERROR None None res]).
Proof.
  intros [evs0 H | evs0 e res H].
  - exists evs0, (Returned tt), []. rewrite app_nil_r. auto.
  - exists evs0, (Thrown e), [EvSendMessage (chat_id usermsg) INTERNAL_ERROR None None res].
    eauto.
Qed.

End Ordering.

(** C4. In every execution of [doOpenAI], at every point of the execution (a
    prefix [p] of its calls, which is what a crash leaves behind): if the
    provider has been called, then the placeholder was sent, the context
    (model and turns so far) was stored under the context id and the
    placeholder was linked to it, in this order and before the provider
    call; and once a message is linked to the context id, the store holds a
    value under the context id. *)
Theorem placeholder_linked_before_provider (env : Env) (usermsg : Message)
    (model : string) (messages : list Turn) (context_id : string) (w : World) :
  exists evs,
    extends w (doOpenAI env usermsg model messages context_id w).2 evs
    /\ forall p, p `prefix_of` evs ->
         (forall ev, ev ∈ p -> is_completion ev = true ->
            exists respmsg res rest,
              p = EvSendMessage (chat_id usermsg) (waiting_text model)
                    (Some (message_id usermsg)) (Some Markdown) (inr respmsg)
                  :: EvRedisSet context_id
                       (JSON.stringify {| model := model; params := messages |})
                  :: EvRedisSet (getMessageId respmsg) context_id
                  :: EvCompletion model messages res
                  :: rest)
         /\ (forall m, EvRedisSet (getMessageId m) context_id ∈ p ->
               is_Some (replay p (redis w) !! context_id)).
Proof.
  destruct (doOpenAI_run env usermsg model messages context_id w) as (evs & Hext & Hrun).
  exists evs. split; [exact Hext|].
  apply open_run_cases in Hrun as (evs0 & r0 & notice & Htry & -> & Hnotice).
  assert (forall ev, ev ∈ notice -> is_completion ev = false /\ is_set ev = false) as Hn.
  { intros ev Hin. destruct Hnotice as [->|[res ->]]; [inversion Hin|].
    apply list_elem_of_singleton in Hin as ->. split; reflexivity. }
  clear Hnotice.
  apply try_run_cases in Htry as [(e & -> & _) | (respmsg & res & rest & -> & Hnc & Hw)].
  - intros p [k Hp]. split.
    + intros ev Hin Hc. exfalso.
      assert (ev ∈ [EvSendMessage (chat_id usermsg) (waiting_text model)
                      (Some (message_id usermsg)) (Some Markdown) (inl e)] ++ notice) as Hin'.
      { rewrite Hp. apply elem_of_app. left. exact Hin. }
      apply elem_of_app in Hin' as [Hin'|Hin'].
      * apply list_elem_of_singleton in Hin' as ->. discriminate Hc.
      * apply Hn in Hin' as [Hin' _]. congruence.
    + intros m Hin. exfalso.
      assert (EvRedisSet (getMessageId m) context_id
                ∈ [EvSendMessage (chat_id usermsg) (waiting_text model)
                      (Some (message_id usermsg)) (Some Markdown) (inl e)] ++ notice) as Hin'.
      { rewrite Hp. apply elem_of_app. left. exact Hin. }
      apply elem_of_app in Hin' as [Hin'|Hin'].
      * apply list_elem_of_singleton in Hin'. discriminate Hin'.
      * apply Hn in Hin' as [_ Hin']. discriminate Hin'.
  - intros p [k Hp].
    destruct p as [|a [|b [|c [|d p]]]]; cbn [app] in Hp.
    + split; intros; match goal with H : _ ∈ [] |- _ => inversion H end.
    + injection Hp as <- _. split.
      * intros ev Hin Hc. apply list_elem_of_singleton in Hin as ->. discriminate Hc.
      * intros m Hin. apply list_elem_of_singleton in Hin. discriminate Hin.
    + injection Hp as <- <- _. split.
      * intros ev Hin Hc.
        repeat (apply elem_of_cons in Hin as [->|Hin]; [discriminate Hc|]). inversion Hin.
      * intros _ _. cbn. rewrite lookup_insert_eq. eauto.
    + injection Hp as <- <- <- _. split.
      * intros ev Hin Hc.
        repeat (apply elem_of_cons in Hin as [->|Hin]; [discriminate Hc|]). inversion Hin.
      * intros _ _.
        apply (replay_is_Some [EvRedisSet (getMessageId respmsg) context_id]).
        cbn. rewrite lookup_insert_eq. eauto.
    + injection Hp as <- <- <- <- _. split.
      * intros _ _ _. eauto.
      * intros _ _.
        apply (replay_is_Some (EvRedisSet (getMessageId respmsg) context_id
                                 :: EvCompletion model messages res :: p)).
        cbn. rewrite lookup_insert_eq. eauto.
Qed.

(** ** The store after [doOpenAI] *)

Section Store.

Lemma open_run_writes usermsg model messages context_id evs r :
  open_run usermsg model messages context_id evs r ->
  forall k v, EvRedisSet k v ∈ evs ->
    (k = context_id /\ v = JSON.stringify {| model := model; params := messages |})
    \/ ((exists m, k = getMessageId m) /\ v = context_id).
Proof.
  intros Hrun k v Hin.
  apply open_run_cases in Hrun as (evs0 & r0 & notice & Htry & -> & Hnotice).
  apply elem_of_app in Hin as [Hin|Hin].
  - apply try_run_cases in Htry as [(e & -> & _) | (respmsg & res & rest & -> & _ & Hw)].
    + apply list_elem_of_singleton in Hin. discriminate Hin.
    + apply elem_of_cons in Hin as [Hin|Hin]; [discriminate Hin|].
      apply elem_of_cons in Hin as [Hin|Hin]; [injection Hin as -> ->; left; auto|].
      apply elem_of_cons in Hin as [Hin|Hin]; [injection Hin as -> ->; right; eauto|].
      apply elem_of_cons in Hin as [Hin|Hin]; [discriminate Hin|].
      right. apply Hw. exact Hin.
  - destruct Hnotice as [->|[res ->]]; [inversion Hin|].
    apply list_elem_of_singleton in Hin. discriminate Hin.
Qed.

(** A key that is not a message key is left as it was, or it is the
    context id and holds the context that was sent to the provider. *)
Lemma open_run_store usermsg model messages context_id evs r
    (store : gmap string string) (key : string) :
  open_run usermsg model messages context_id evs r ->
  Text.startsWith key "msgid:" = false ->
  replay evs store !! key = store !! key
  \/ (key = context_id
      /\ replay evs store !! key
         = Some (JSON.stringify {| model := model; params := messages |})).
Proof.
  intros Hrun Hkey.
  assert (forall (evs' : list Event) k v, (forall k v, EvRedisSet k v ∈ evs' ->
              (exists m, k = getMessageId m) /\ v = context_id) ->
            EvRedisSet k v ∈ evs' -> k <> key) as Hother.
  { intros evs' k v Hw Hin ->. apply Hw in Hin as [[m Hm] _].
    rewrite Hm, getMessageId_prefix in Hkey. discriminate Hkey. }
  apply open_run_cases in Hrun as (evs0 & r0 & notice & Htry & -> & Hnotice).
  rewrite replay_app.
  assert (replay notice (replay evs0 store) = replay evs0 store) as ->.
  { destruct Hnotice as [->|[res ->]]; reflexivity. }
  apply try_run_cases in Htry as [(e & -> & _) | (respmsg & res & rest & -> & _ & Hw)].
  - left. reflexivity.
  - set (blob := JSON.stringify {| model := model; params := messages |}).
    change (replay (EvRedisSet (getMessageId respmsg) context_id
                      :: EvCompletion model messages res :: rest)
              (<[context_id := blob]> store) !! key = store !! key
            \/ key = context_id
               /\ replay (EvRedisSet (getMessageId respmsg) context_id
                            :: EvCompletion model messages res :: rest)
                    (<[context_id := blob]> store) !! key = Some blob).
    rewrite replay_other_keys.
    + destruct (decide (context_id = key)) as [->|Hne].
      * right. split; [reflexivity | apply lookup_insert_eq].
      * left. apply lookup_insert_ne. exact Hne.
    + intros k v Hin.
      apply (Hother (EvRedisSet (getMessageId respmsg) context_id :: rest) k v).
      * intros k' v' Hin'. apply elem_of_cons in Hin' as [Hin'|Hin'].
        -- injection Hin' as -> ->. eauto.
        -- apply Hw. exact Hin'.
      * apply elem_of_cons in Hin as [Hin|Hin]; [rewrite Hin; left|].
        apply elem_of_cons in Hin as [Hin|Hin]; [discriminate Hin|].
        right. exact Hin.
Qed.

(** When the transport accepts the placeholder, the context is stored. *)
Lemma doOpenAI_store env usermsg model messages context_id w respmsg :
  Text.startsWith context_id "msgid:" = false ->
  tg_sendMessage env (length (trace w)) (chat_id usermsg) (waiting_text model)
    (Some (message_id usermsg)) (Some Markdown) = inr respmsg ->
  redis (doOpenAI env usermsg model messages context_id w).2 !! context_id
  = Some (JSON.stringify {| model := model; params := messages |}).
Proof.
  intros Hctx Hsend.
  destruct (doOpenAI_run_head env usermsg model messages context_id w)
    as (evs & [_ ->] & Hrun & Hhead).
  unfold placeholder_call in Hhead. rewrite Hsend in Hhead.
  destruct (open_run_store _ _ _ _ _ _ (redis w) context_id Hrun Hctx) as [Hsame|[_ Hset]];
    [|exact Hset].
  apply open_run_cases in Hrun as (evs0 & r0 & notice & Htry & -> & Hnotice).
  apply try_run_cases in Htry as [(e & -> & _) | (respmsg' & res & rest & -> & _ & Hw)].
  - discriminate Hhead.
  - clear Hsame. rewrite replay_app.
    assert (forall st, replay notice st = st) as ->.
    { intros st. destruct Hnotice as [->|[res' ->]]; reflexivity. }
    change (replay (EvRedisSet (getMessageId respmsg') context_id
                      :: EvCompletion model messages res :: rest)
              (<[context_id := JSON.stringify {| model := model; params := messages |}]>
                 (redis w)) !! context_id
            = Some (JSON.stringify {| model := model; params := messages |})).
    rewrite replay_other_keys; [apply lookup_insert_eq|].
    intros k v Hin ->.
    apply elem_of_cons in Hin as [Hin|Hin].
    + injection Hin as Hk _. rewrite Hk, getMessageId_prefix in Hctx. discriminate Hctx.
    + apply elem_of_cons in Hin as [Hin|Hin]; [discriminate Hin|].
      apply Hw in Hin as [[m Hm] _].
      rewrite Hm, getMessageId_prefix in Hctx. discriminate Hctx.
Qed.

End Store.

(** ** What is stored after a delivery *)

(** C1 (amended). When [doOpenAI]'s [try] block completes (the reply was
    delivered), the context is not stored a second time: the only write
    under the context id is the one made before the provider call, every
    write after that call links a message to the context id, and the store
    still holds the model and the turns that were sent to the provider; the
    assistant's turn is not appended.  The context id is assumed not to
    have the form of a message key. *)
Theorem context_kept_after_delivery (env : Env) (usermsg : Message) (model : string)
    (messages : list Turn) (context_id : string) (w : World) :
  Text.startsWith context_id "msgid:" = false ->
  (doOpenAI_try env usermsg model messages context_id w).1 = Returned tt ->
  exists respmsg resp reply rest,
    extends w (doOpenAI_try env usermsg model messages context_id w).2
      (EvSendMessage (chat_id usermsg) (waiting_text model)
         (Some (message_id usermsg)) (Some Markdown) (inr respmsg)
       :: EvRedisSet context_id (JSON.stringify {| model := model; params := messages |})
       :: EvRedisSet (getMessageId respmsg) context_id
       :: EvCompletion model messages (inr resp)
       :: rest)
    /\ assemble_reply resp = Some reply
    /\ (forall k v, EvRedisSet k v ∈ rest -> (exists m, k = getMessageId m) /\ v = context_id)
    /\ redis (doOpenAI_try env usermsg model messages context_id w).2 !! context_id
       = Some (JSON.stringify {| model := model; params := messages |}).
Proof.
  intros Hctx Hret.
  destruct (doOpenAI_try_run env usermsg model messages context_id w) as (evs & Hext & Hrun).
  rewrite Hret in Hrun.
  inversion Hrun as [| respmsg tail r Hreply]; subst.
  inversion Hreply as [| | resp reply tail' r Hsome Hparts]; subst.
  pose proof (parts_run_writes _ _ _ _ _ _ _ Hparts) as Hw.
  exists respmsg, resp, reply, tail'. split; [exact Hext|]. split; [exact Hsome|].
  split; [exact Hw|].
  destruct Hext as [_ ->].
  change (replay
            (EvRedisSet (getMessageId respmsg) context_id
               :: EvCompletion model messages (inr resp) :: tail')
            (<[context_id := JSON.stringify {| model := model; params := messages |}]> (redis w))
            !! context_id
          = Some (JSON.stringify {| model := model; params := messages |})).
  rewrite replay_other_keys.
  - apply lookup_insert_eq.
  - intros k v Hin Heq. subst k.
    apply elem_of_cons in Hin as [Hin|Hin].
    + injection Hin as Hk _. rewrite Hk, getMessageId_prefix in Hctx. discriminate Hctx.
    + apply elem_of_cons in Hin as [Hin|Hin]; [discriminate Hin|].
      apply Hw in Hin as [[m Hk] _]. rewrite Hk, getMessageId_prefix in Hctx.
      discriminate Hctx.
Qed.

(** ** Every delivered fragment is linked *)

Section Links.



End Links.


(** ** Markdown first, plain text as a fallback *)

Section Fallback.

Ltac block_cases H i :=
  destruct H; unfold attempt, link_events in *; destruct (i =? 0).

Lemma part_run_plain_after_refusal i part respmsg prevmsg context_id evs r :
  part_run i part respmsg prevmsg context_id evs r ->
  forall p ev, evs !! p = Some ev -> is_plain_attempt ev = true ->
    exists q ev0 e, p = S q /\ evs !! q = Some ev0
      /\ refused_markdown ev0 = Some e /\ plain_retry ev0 ev.
Proof.
  intros H p ev Hp Hplain.
  block_cases H i;
    destruct p as [|[|[|[|p]]]]; cbn in Hp; try discriminate Hp;
    injection Hp as <-; try discriminate Hplain;
    (eexists 0, _, _; split; [reflexivity|]; split; [reflexivity|];
     split; [reflexivity|]; cbn; auto).
Qed.

Lemma part_run_retry i part respmsg prevmsg context_id evs r :
  part_run i part respmsg prevmsg context_id evs r ->
  forall p ev e, evs !! p = Some ev -> refused_markdown ev = Some e ->
    exists ev', evs !! S p = Some ev' /\ plain_retry ev ev'
      /\ (accepted ev' = true ->
          exists res, evs !! S (S p)
            = Some (EvSendMessage (chat_id respmsg) (fallback_notice e) None None res)).
Proof.
  intros H p ev e0 Hp Hmd.
  block_cases H i;
    destruct p as [|[|[|[|p]]]]; cbn in Hp; try discriminate Hp;
    injection Hp as <-; try discriminate Hmd; injection Hmd as <-;
    (eexists; split; [reflexivity|]; split; [cbn; auto|]);
    intros Hacc; try discriminate Hacc; eexists; reflexivity.
Qed.

Lemma part_run_markdown_body i part respmsg prevmsg context_id evs r :
  part_run i part respmsg prevmsg context_id evs r ->
  omap markdown_body evs = [part].
Proof. intros H. block_cases H i; reflexivity. Qed.

Lemma part_run_delivered i part respmsg prevmsg context_id evs r :
  part_run i part respmsg prevmsg context_id evs r ->
  (forall ev, ev ∈ evs -> refused_markdown ev = None -> accepted ev = true) ->
  (exists prevmsg', r = Returned prevmsg') /\ omap delivered_body evs = [part].
Proof.
  intros H Hacc.
  block_cases H i; try (split; [eexists; reflexivity | reflexivity]); exfalso.
  - specialize (Hacc (EvEditMessageText part (chat_id respmsg) (message_id respmsg)
                        None (Some e'))).
    discriminate Hacc; [set_solver | reflexivity].
  - specialize (Hacc (EvSendMessage (chat_id respmsg) part (Some (message_id prevmsg))
                        None (inl e'))).
    discriminate Hacc; [set_solver | reflexivity].
  - specialize (Hacc (EvSendMessage (chat_id respmsg) (fallback_notice e) None None
                        (inl e'))).
    discriminate Hacc; [set_solver | reflexivity].
  - specialize (Hacc (EvSendMessage (chat_id respmsg) (fallback_notice e) None None
                        (inl e'))).
    discriminate Hacc; [set_solver | reflexivity].
Qed.

Lemma parts_run_plain_after_refusal respmsg context_id i rest prevmsg evs r :
  parts_run respmsg context_id i rest prevmsg evs r ->
  forall p ev, evs !! p = Some ev -> is_plain_attempt ev = true ->
    exists q ev0 e, p = S q /\ evs !! q = Some ev0
      /\ refused_markdown ev0 = Some e /\ plain_retry ev0 ev.
Proof.
  induction 1 as [| i part rest prevmsg evs e Hp | i part rest prevmsg prevmsg' evs evs' r Hp Hr IH];
    intros p ev Hlook Hplain.
  - discriminate Hlook.
  - eapply part_run_plain_after_refusal; eassumption.
  - apply lookup_app_Some in Hlook as [Hlook | [Hlen Hlook]].
    + destruct (part_run_plain_after_refusal _ _ _ _ _ _ _ Hp p ev Hlook Hplain)
        as (q & ev0 & e & -> & Hq & Hmd & Hretry).
      exists q, ev0, e. split; [reflexivity|]. split; [|auto].
      apply lookup_app_l_Some. exact Hq.
    + destruct (IH _ _ Hlook Hplain) as (q & ev0 & e & Hpq & Hq & Hmd & Hretry).
      exists (length evs + q), ev0, e. split; [lia|]. split; [|auto].
      rewrite lookup_app_r by lia. rewrite <- Hq. f_equal. lia.
Qed.

Lemma parts_run_retry respmsg context_id i rest prevmsg evs r :
  parts_run respmsg context_id i rest prevmsg evs r ->
  forall p ev e, evs !! p = Some ev -> refused_markdown ev = Some e ->
    exists ev', evs !! S p = Some ev' /\ plain_retry ev ev'
      /\ (accepted ev' = true ->
          exists res, evs !! S (S p)
            = Some (EvSendMessage (chat_id respmsg) (fallback_notice e) None None res)).
Proof.
  induction 1 as [| i part rest prevmsg evs e Hp | i part rest prevmsg prevmsg' evs evs' r Hp Hr IH];
    intros p ev e0 Hlook Hmd.
  - discriminate Hlook.
  - eapply part_run_retry; eassumption.
  - apply lookup_app_Some in Hlook as [Hlook | [Hlen Hlook]].
    + destruct (part_run_retry _ _ _ _ _ _ _ Hp p ev e0 Hlook Hmd)
        as (ev' & Hnext & Hretry & Hnotice).
      exists ev'. split; [apply lookup_app_l_Some; exact Hnext|]. split; [exact Hretry|].
      intros Hacc. destruct (Hnotice Hacc) as [res Hres].
      exists res. apply lookup_app_l_Some. exact Hres.
    + destruct (IH _ _ _ Hlook Hmd) as (ev' & Hnext & Hretry & Hnotice).
      exists ev'. split.
      * rewrite lookup_app_r by lia. rewrite <- Hnext. f_equal. lia.
      * split; [exact Hretry|]. intros Hacc. destruct (Hnotice Hacc) as [res Hres].
        exists res. rewrite lookup_app_r by lia. rewrite <- Hres. f_equal. lia.
Qed.

Lemma parts_run_markdown_bodies respmsg context_id i rest prevmsg evs r :
  parts_run respmsg context_id i rest prevmsg evs r ->
  omap markdown_body evs `prefix_of` rest
  /\ (r = Returned tt -> omap markdown_body evs = rest).
Proof.
  induction 1 as [| i part rest prevmsg evs e Hp | i part rest prevmsg prevmsg' evs evs' r Hp Hr IH].
  - split; [apply prefix_nil | reflexivity].
  - rewrite (part_run_markdown_body _ _ _ _ _ _ _ Hp). split.
    + exists rest. reflexivity.
    + intros Hr. discriminate Hr.
  - rewrite omap_app, (part_run_markdown_body _ _ _ _ _ _ _ Hp).
    destruct IH as [IH1 IH2]. split.
    + apply (prefix_cons part). exact IH1.
    + intros Hret. cbn [app]. f_equal. apply IH2. exact Hret.
Qed.

Lemma parts_run_delivered respmsg context_id i rest prevmsg evs r :
  parts_run respmsg context_id i rest prevmsg evs r ->
  (forall ev, ev ∈ evs -> refused_markdown ev = None -> accepted ev = true) ->
  r = Returned tt /\ omap delivered_body evs = rest.
Proof.
  induction 1 as [| i part rest prevmsg evs e Hp | i part rest prevmsg prevmsg' evs evs' r Hp Hr IH];
    intros Hacc.
  - split; reflexivity.
  - destruct (part_run_delivered _ _ _ _ _ _ _ Hp Hacc) as [[m Hm] _]. discriminate Hm.
  - destruct (part_run_delivered _ _ _ _ _ _ _ Hp) as [_ Hd].
    { intros ev Hin. apply Hacc. apply elem_of_app. left. exact Hin. }
    destruct IH as [-> IH].
    { intros ev Hin. apply Hacc. apply elem_of_app. right. exact Hin. }
    split; [reflexivity|]. rewrite omap_app, Hd, IH. reflexivity.
Qed.

End Fallback.

(** C7. In every execution of [doWriteReply]: the fragments are tried in
    Markdown mode, in their order, and a delivery without a parse mode only
    ever follows the refused Markdown attempt of the same call; after a
    refused Markdown attempt the next call delivers the same text to the
    same target without a parse mode, and when that is accepted the call
    after it sends the fallback notice; and when the transport refuses
    nothing but Markdown attempts, the loop goes on to the end and every
    fragment is delivered, once and in order. *)
Theorem markdown_then_plaintext (env : Env) (reply : string) (respmsg : Message)
    (context_id : string) (w : World) :
  exists evs,
    extends w (doWriteReply env (Some reply) respmsg context_id w).2 evs
    /\ omap markdown_body evs `prefix_of` split_parts reply
    /\ (forall p ev, evs !! p = Some ev -> is_plain_attempt ev = true ->
          exists q ev0 e, p = S q /\ evs !! q = Some ev0
            /\ refused_markdown ev0 = Some e /\ plain_retry ev0 ev)
    /\ (forall p ev e, evs !! p = Some ev -> refused_markdown ev = Some e ->
          exists ev', evs !! S p = Some ev' /\ plain_retry ev ev'
            /\ (accepted ev' = true ->
                exists res, evs !! S (S p)
                  = Some (EvSendMessage (chat_id respmsg) (fallback_notice e)
                            None None res)))
    /\ ((forall ev, ev ∈ evs -> refused_markdown ev = None -> accepted ev = true) ->
        (doWriteReply env (Some reply) respmsg context_id w).1 = Returned tt
        /\ omap delivered_body evs = split_parts reply).
Proof.
  destruct (doWriteReply_run env reply respmsg context_id w) as (evs & Hext & Hrun).
  exists evs. split; [exact Hext|]. split; [|split; [|split]].
  - apply (parts_run_markdown_bodies _ _ _ _ _ _ _ Hrun).
  - apply (parts_run_plain_after_refusal _ _ _ _ _ _ _ Hrun).
  - apply (parts_run_retry _ _ _ _ _ _ _ Hrun).
  - apply (parts_run_delivered _ _ _ _ _ _ _ Hrun).
Qed.

(** ** Replies without a context *)


(** ** Scenarios *)

(** C9. For the command [/openai hello] sent as message 55 of the whitelisted
    chat 100: the pattern matches with the payload [hello], the context id
    is [ctx:100-55], built from the chat id and the message id, and, once
    the transport has accepted the placeholder, the store holds under that
    id the configured model with the two turns: the system primer and the
    user turn [hello]. *)
Theorem scenario_A (env : Env) (JSON_parse : string -> JSON.Parsed) (botID : Z)
    (state : AppState.t) (w : World) (sender : option Z) (replied : option Message)
    (respmsg : Message) :
  100%Z ∈ AppState.whitelist state ->
  tg_sendMessage env (length (trace w)) 100 (waiting_text (AppState.model state))
    (Some 55%Z) (Some Markdown) = inr respmsg ->
  Command.match_MSG_REGEX "/openai hello"
  = Some {| Command.variant := EmptyString; Command.mention := None;
            Command.payload := "hello" |}
  /\ new_context_id (scenario_A_message sender replied) = "ctx:100-55"
  /\ redis (on_message env JSON_parse botID state (scenario_A_message sender replied) w).2
       !! "ctx:100-55"
     = Some (JSON.stringify
               {| model := AppState.model state;
                  params := [SYSTEM_PRIMER; {| role := user; content := "hello" |}] |}).
Proof.
  intros Hwhite Hsend.
  split; [reflexivity|]. split; [reflexivity|].
  unfold on_message. cbn [chat_id text scenario_A_message].
  rewrite (bool_decide_eq_true_2 _ Hwhite). cbn [negb Text.truthy].
  change (Command.match_MSG_REGEX "/openai hello")
    with (Some {| Command.variant := EmptyString; Command.mention := None;
                  Command.payload := "hello" |}).
  cbn [Command.variant Command.payload String.eqb].
  apply (doOpenAI_store env _ _ _ _ w respmsg); [reflexivity | exact Hsend].
Qed.

(** C5. When the provider's reply has exactly 5000 code units and the
    transport accepts every call, [doOpenAI] makes three fragments of 2048,
    2048 and 904 code units; the first is written into the placeholder by
    an edit, the second is sent as a reply to the placeholder and the third
    as a reply to the second; and the store the execution leaves resolves
    the three messages to the same context id. *)
Theorem scenario_C (env : Env) (usermsg : Message) (model : string)
    (messages : list Turn) (context_id : string) (w : World)
    (resp : Completion) (reply : string) :
  (forall n chat body reply_to mode,
      exists m, tg_sendMessage env n chat body reply_to mode = inr m) ->
  (forall n body chat msg mode, tg_editMessageText env n body chat msg mode = None) ->
  (forall n, openai_create env n model messages = inr resp) ->
  assemble_reply resp = Some reply ->
  String.length reply = 5000 ->
  exists (m0 m1 m2 : Message) (f0 f1 f2 : string),
    split_parts reply = [f0; f1; f2]
    /\ map String.length [f0; f1; f2] = [2048; 2048; 904]
    /\ (doOpenAI env usermsg model messages context_id w).1 = Returned tt
    /\ trace (doOpenAI env usermsg model messages context_id w).2
       = trace w ++
         [EvSendMessage (chat_id usermsg) (waiting_text model)
            (Some (message_id usermsg)) (Some Markdown) (inr m0);
          EvRedisSet context_id (JSON.stringify {| model := model; params := messages |});
          EvRedisSet (getMessageId m0) context_id;
          EvCompletion model messages (inr resp);
          EvEditMessageText f0 (chat_id m0) (message_id m0) (Some Markdown) None;
          EvSendMessage (chat_id m0) f1 (Some (message_id m0)) (Some Markdown) (inr m1);
          EvRedisSet (getMessageId m1) context_id;
          EvSendMessage (chat_id m0) f2 (Some (message_id m1)) (Some Markdown) (inr m2);
          EvRedisSet (getMessageId m2) context_id]
    /\ redis (doOpenAI env usermsg model messages context_id w).2 !! getMessageId m0
       = Some context_id
    /\ redis (doOpenAI env usermsg model messages context_id w).2 !! getMessageId m1
       = Some context_id
    /\ redis (doOpenAI env usermsg model messages context_id w).2 !! getMessageId m2
       = Some context_id.
Proof.
  intros Hsend Hedit Hcreate Hreply Hlen.
  destruct (split_parts_5000 reply Hlen) as (Hsplit & L0 & L1 & L2).
  remember (doOpenAI env usermsg model messages context_id w) as run eqn:Hrun.
  unfold doOpenAI, doOpenAI_try, getOpenAIReply in Hrun. monad_unfold.
  destruct (Hsend (length (trace w)) (chat_id usermsg) (waiting_text model)
              (Some (message_id usermsg)) (Some Markdown)) as [m0 E0].
  rewrite E0 in Hrun. cbn [fst snd trace redis] in Hrun.
  rewrite Hcreate, Hreply in Hrun. cbn [fst snd trace redis] in Hrun.
  unfold doWriteReply in Hrun. rewrite Hsplit in Hrun.
  cbn [write_parts] in Hrun. unfold deliver_part in Hrun. cbn [Nat.eqb] in Hrun.
  monad_unfold.
  rewrite Hedit in Hrun. cbn [fst snd trace redis] in Hrun.
  match type of Hrun with context [tg_sendMessage env ?n ?c ?b ?r ?m] =>
    destruct (Hsend n c b r m) as [m1 E1]; rewrite E1 in Hrun
  end.
  cbn [fst snd trace redis] in Hrun.
  match type of Hrun with context [tg_sendMessage env ?n ?c ?b ?r ?m] =>
    destruct (Hsend n c b r m) as [m2 E2]; rewrite E2 in Hrun
  end.
  cbn [fst snd trace redis] in Hrun.
  exists m0, m1, m2. do 3 eexists.
  split; [exact Hsplit|]. split; [cbn [map]; rewrite L0, L1, L2; reflexivity|].
  subst run. cbn [fst snd trace redis].
  split; [reflexivity|]. split; [rewrite <- !app_assoc; reflexivity|].
  set (tail := [EvRedisSet (getMessageId m0) context_id;
                EvRedisSet (getMessageId m1) context_id;
                EvRedisSet (getMessageId m2) context_id]).
  assert (forall key, EvRedisSet key context_id ∈ tail ->
            <[getMessageId m2 := context_id]>
              (<[getMessageId m1 := context_id]>
                 (<[getMessageId m0 := context_id]>
                    (<[context_id := JSON.stringify {| model := model; params := messages |}]>
                       (redis w)))) !! key = Some context_id) as Hlinks.
  { intros key Hin.
    apply (replay_same_value tail context_id
             (<[context_id := JSON.stringify {| model := model; params := messages |}]>
                (redis w)) key).
    - intros k v Hk. subst tail.
      repeat (apply elem_of_cons in Hk as [Hk|Hk]; [congruence|]). inversion Hk.
    - left. exact Hin. }
  subst tail. split; [|split]; apply Hlinks; set_solver.
Qed.

(** ** The stores the bot can reach *)

Section Invariant.

Variable JSON_parse : string -> JSON.Parsed.

Lemma replay_no_sets (evs : list Event) (store : gmap string string) :
  (forall ev, ev ∈ evs -> is_set ev = false) -> replay evs store = store.
Proof.
  revert store. induction evs as [|ev evs IH]; intros store H; [reflexivity|].
  cbn [replay fold_left]. fold (replay evs (apply_event store ev)).
  rewrite IH.
  - specialize (H ev (list_elem_of_here _ _)). destruct ev; try reflexivity.
    discriminate H.
  - intros ev' Hin. apply H. right. exact Hin.
Qed.

Ltac quiet :=
  eexists; split;
  [ solve_extends
  | left; intros ev Hin;
    repeat (apply elem_of_cons in Hin as [->|Hin]; [reflexivity|]); inversion Hin ].

Ltac quiet_send :=
  match goal with |- context [tg_sendMessage ?env ?n ?c ?b ?r ?m] =>
    destruct (tg_sendMessage env n c b r m)
  end; cbn [fst snd trace redis]; quiet.

Lemma reply_handler_shape env usermsg w :
  exists evs,
    extends w (reply_handler env JSON_parse usermsg w).2 evs
    /\ update_shape JSON_parse usermsg (redis w) evs.
Proof.
  unfold reply_handler, load_context, no_context_notice.
  destruct (reply_to_message usermsg) as [replied|] eqn:Hreplied.
  2: { exists []. split; [apply extends_nil | left; intros ev Hin; inversion Hin]. }
  monad_unfold.
  destruct (redis w !! getMessageId replied) as [context_id|] eqn:Hlink;
    cbn [fst snd trace redis]; [|quiet_send].
  destruct (Text.truthy context_id) eqn:Hid; cbn [fst snd trace redis]; [|quiet_send].
  destruct (redis w !! context_id) as [data|] eqn:Hdata;
    cbn [fst snd trace redis]; [|quiet_send].
  destruct (Text.truthy data) eqn:Htruthy; cbn [fst snd trace redis]; [|quiet_send].
  destruct (JSON_parse data) as [| |c|] eqn:Hparse; cbn [fst snd trace redis];
    try quiet_send.
  - destruct (text usermsg) as [txt|] eqn:Htext; cbn [fst snd trace redis];
      [|quiet_send].
    match goal with |- context [doOpenAI env usermsg ?m ?ps context_id ?w1] =>
      destruct (doOpenAI_run env usermsg m ps context_id w1) as (evs0 & Hext & Hrun);
      destruct (doOpenAI env usermsg m ps context_id w1) as [r w'] eqn:Hdo;
      set (w2 := w1) in *
    end.
    cbn [fst snd] in *.
    exists ([EvRedisGet (getMessageId replied) (Some context_id);
             EvRedisGet context_id (Some data)] ++ evs0).
    split.
    + eapply (extends_app w w2); [|exact Hext]. subst w2. solve_extends.
    + right. right.
      exists replied, context_id, data, c, txt,
        [EvRedisGet (getMessageId replied) (Some context_id);
         EvRedisGet context_id (Some data)], evs0, r.
      repeat (split; [first [assumption | reflexivity]|]).
      split; [|exact Hrun].
      intros ev Hin.
      repeat (apply elem_of_cons in Hin as [->|Hin]; [reflexivity|]). inversion Hin.
  - destruct (text usermsg) as [txt|] eqn:Htext; cbn [fst snd trace redis];
      [quiet | quiet_send].
Qed.

Lemma on_message_shape env botID state usermsg w :
  exists evs,
    extends w (on_message env JSON_parse botID state usermsg w).2 evs
    /\ update_shape JSON_parse usermsg (redis w) evs.
Proof.
  unfold on_message.
  destruct (negb (bool_decide (chat_id usermsg ∈ AppState.whitelist state))).
  { monad_unfold. quiet_send. }
  destruct (text usermsg) as [txt|] eqn:Htext.
  2: { exists []. split; [apply extends_nil | left; intros ev Hin; inversion Hin]. }
  destruct (negb (Text.truthy txt)).
  { exists []. split; [apply extends_nil | left; intros ev Hin; inversion Hin]. }
  destruct (Command.match_MSG_REGEX txt) as [command_payload|].
  - match goal with |- context [doOpenAI env usermsg ?m ?ps ?id w] =>
      destruct (doOpenAI_run env usermsg m ps id w) as (evs & Hext & Hrun)
    end.
    exists evs. split; [exact Hext|]. right. left. eauto.
  - destruct (is_replying_to_bot botID usermsg).
    + destruct (Text.startsWith txt "''" || Text.startsWith txt "//")%bool.
      * exists []. split; [apply extends_nil | left; intros ev Hin; inversion Hin].
      * apply reply_handler_shape.
    + exists []. split; [apply extends_nil | left; intros ev Hin; inversion Hin].
Qed.

Lemma ctx_not_msgid (key : string) :
  Text.startsWith key "ctx:" = true -> Text.startsWith key "msgid:" = false.
Proof.
  destruct key as [|a key]; [discriminate|].
  unfold Text.startsWith. cbn [Text.strip_prefix].
  destruct (Ascii.eqb_spec "c" a) as [<-|]; [reflexivity | discriminate].
Qed.

Lemma replay_well_formed (evs : list Event) : forall (store : gmap string string),
  well_formed store ->
  (forall k v, EvRedisSet k v ∈ evs -> good_entry k v) ->
  well_formed (replay evs store).
Proof.
  induction evs as [|ev evs IH]; intros store Hwf Hev; [exact Hwf|].
  cbn [replay fold_left]. fold (replay evs (apply_event store ev)).
  apply IH.
  - destruct ev; try exact Hwf. cbn [apply_event].
    intros k v Hlook. destruct (decide (key = k)) as [->|Hne].
    + rewrite lookup_insert_eq in Hlook. injection Hlook as <-.
      apply Hev. left.
    + rewrite lookup_insert_ne in Hlook by exact Hne. apply Hwf. exact Hlook.
  - intros k v Hin. apply Hev. right. exact Hin.
Qed.

Lemma user_turns_snoc (turns : list Turn) (txt : string) :
  user_turns_only turns -> user_turns_only (turns ++ [user_turn txt]).
Proof.
  intros (us & -> & Hne). exists (us ++ [txt]). split.
  - rewrite map_app. reflexivity.
  - destruct us; discriminate.
Qed.

Hypothesis JSON_round_trip : forall c, JSON_parse (JSON.stringify c) = JSON.Context c.

Lemma stringify_inj (c c' : ChatContext) :
  JSON.stringify c = JSON.stringify c' -> c = c'.
Proof.
  intros H. apply (f_equal JSON_parse) in H. rewrite !JSON_round_trip in H.
  injection H as ->. reflexivity.
Qed.

Lemma update_well_formed usermsg (store : gmap string string) (evs : list Event) :
  well_formed store ->
  update_shape JSON_parse usermsg store evs ->
  well_formed (replay evs store).
Proof.
  intros Hwf [Hquiet | [(model & payload & r & Hrun)
    | (replied & context_id & data & c & txt & reads & evs0 & r
       & Hreplied & Hlink & Hdata & Hparse & -> & Hreads & Hrun)]].
  - rewrite replay_no_sets by exact Hquiet. exact Hwf.
  - apply replay_well_formed; [exact Hwf|].
    intros k v Hin.
    destruct (open_run_writes _ _ _ _ _ _ Hrun k v Hin) as [[-> ->] | [[m ->] ->]].
    + right. split; [reflexivity|]. eexists. split; [reflexivity|].
      exists [payload]. split; [reflexivity | discriminate].
    + left. split; reflexivity.
  - rewrite replay_app, (replay_no_sets reads) by exact Hreads.
    apply replay_well_formed; [exact Hwf|].
    assert (Text.startsWith context_id "ctx:" = true) as Hctx.
    { destruct (Hwf _ _ Hlink) as [[_ H] | [H _]]; [exact H | discriminate H]. }
    assert (user_turns_only (params c)) as Hturns.
    { destruct (Hwf _ _ Hdata) as [[H _] | [_ (c0 & Hc0 & H)]].
      - rewrite (ctx_not_msgid _ Hctx) in H. discriminate H.
      - rewrite Hc0, JSON_round_trip in Hparse. injection Hparse as <-. exact H. }
    intros k v Hin.
    destruct (open_run_writes _ _ _ _ _ _ Hrun k v Hin) as [[-> ->] | [[m ->] ->]].
    + right. split; [exact Hctx|]. eexists. split; [reflexivity|].
      cbn [params]. apply user_turns_snoc. exact Hturns.
    + left. split; [reflexivity | exact Hctx].
Qed.

Lemma reachable_well_formed (store : gmap string string) :
  reachable JSON_parse store -> well_formed store.
Proof.
  induction 1 as [| store env botID state usermsg calls Hreach IH].
  - intros k v H. rewrite lookup_empty in H. discriminate H.
  - destruct (on_message_shape env botID state usermsg {| redis := store; trace := calls |})
      as (evs & [_ ->] & Hshape).
    cbn [redis] in *. apply (update_well_formed usermsg); assumption.
Qed.

(** An update leaves a stored context as it was or appends one user turn
    to it, unless it starts a conversation under the same id. *)
Lemma update_grows usermsg (store : gmap string string) (evs : list Event)
    (key : string) (c : ChatContext) :
  update_shape JSON_parse usermsg store evs ->
  store !! new_context_id usermsg = None ->
  Text.startsWith key "ctx:" = true ->
  store !! key = Some (JSON.stringify c) ->
  exists c', replay evs store !! key = Some (JSON.stringify c')
    /\ model c' = model c
    /\ (params c' = params c \/ exists txt, params c' = params c ++ [user_turn txt]).
Proof.
  intros [Hquiet | [(model & payload & r & Hrun)
    | (replied & context_id & data & c1 & txt & reads & evs0 & r
       & Hreplied & Hlink & Hdata & Hparse & -> & Hreads & Hrun)]] Hfresh Hkey Hlook.
  - rewrite replay_no_sets by exact Hquiet. exists c. auto.
  - destruct (open_run_store _ _ _ _ _ _ store key Hrun (ctx_not_msgid _ Hkey))
      as [Hsame | [-> _]].
    + rewrite Hsame. exists c. auto.
    + rewrite Hfresh in Hlook. discriminate Hlook.
  - rewrite replay_app, (replay_no_sets reads) by exact Hreads.
    destruct (open_run_store _ _ _ _ _ _ store key Hrun (ctx_not_msgid _ Hkey))
      as [Hsame | [-> Hset]].
    + rewrite Hsame. exists c. auto.
    + rewrite Hdata in Hlook. injection Hlook as ->.
      rewrite JSON_round_trip in Hparse. injection Hparse as <-.
      eexists. split; [exact Hset|]. split; [reflexivity|]. right. eauto.
Qed.

End Invariant.

(** C2 (amended). Let [JSON.parse] read back what [JSON.stringify] wrote.
    In every store the bot can reach, the turns stored under a context id
    are the system primer followed by one or more user turns: the
    assistant's turns are never stored, so the turns after the primer do
    not alternate.  And an update triggered by a message whose context id
    is not in use leaves every stored context as it was or with exactly one
    user turn appended at its end, under the same model: no turn is removed
    or moved. *)
Theorem stored_turns_only_grow (JSON_parse : string -> JSON.Parsed)
    (store : gmap string string) :
  (forall c, JSON_parse (JSON.stringify c) = JSON.Context c) ->
  reachable JSON_parse store ->
  (forall key value,
      Text.startsWith key "ctx:" = true -> store !! key = Some value ->
      exists c us, value = JSON.stringify c
        /\ params c = SYSTEM_PRIMER :: map user_turn us /\ us <> [])
  /\ (forall env botID state usermsg calls key c,
        store !! new_context_id usermsg = None ->
        Text.startsWith key "ctx:" = true ->
        store !! key = Some (JSON.stringify c) ->
        exists c',
          redis (on_message env JSON_parse botID state usermsg
                   {| redis := store; trace := calls |}).2 !! key
          = Some (JSON.stringify c')
          /\ model c' = model c
          /\ (params c' = params c
              \/ exists txt, params c' = params c ++ [user_turn txt])).
Proof.
  intros Hround Hreach. split.
  - intros key value Hkey Hlook.
    destruct (reachable_well_formed JSON_parse Hround store Hreach key value Hlook)
      as [[H _] | [_ (c & -> & us & Hus & Hne)]].
    + rewrite (ctx_not_msgid _ Hkey) in H. discriminate H.
    + exists c, us. auto.
  - intros env botID state usermsg calls key c Hfresh Hkey Hlook.
    destruct (on_message_shape JSON_parse env botID state usermsg
                {| redis := store; trace := calls |}) as (evs & [_ ->] & Hshape).
    cbn [redis] in *.
    apply (update_grows JSON_parse Hround usermsg store evs key c); assumption.
Qed.


(** ** Concrete executions *)

(** C1, counterexample. Scenario A with a provider that answers: the reply is
    delivered into the placeholder and the update ends normally, yet the
    turns stored under the context id end with the user's turn; no stored
    context for that id ends with an assistant turn. *)
Lemma assistant_turn_not_stored :
  (on_message (Example.env "hi there") Reader.parse Example.botID Example.state
     Example.command Example.start).1 = Returned tt
  /\ EvEditMessageText (newline +:+ "hi there") 100 1000 (Some Markdown) None
       ∈ trace Example.after_command
  /\ redis Example.after_command !! "ctx:100-55" = Some (JSON.stringify Example.context_A)
  /\ ~ (exists c t,
          redis Example.after_command !! "ctx:100-55" = Some (JSON.stringify c)
          /\ last (params c) = Some t /\ role t = assistant).
Proof.
  assert (redis Example.after_command !! "ctx:100-55" = Some (JSON.stringify Example.context_A))
    as Hstored by (vm_compute; reflexivity).
  split; [vm_compute; reflexivity|].
  split; [vm_compute; find_event|].
  split; [exact Hstored|].
  intros (c & t & Hc & Hlast & Hrole).
  rewrite Hstored in Hc.
  apply (f_equal (fun o => match o with
                           | Some data => Reader.parse data
                           | None => JSON.Throws
                           end)) in Hc.
  cbv beta iota in Hc. rewrite !parse_stringify in Hc. injection Hc as <-.
  cbn in Hlast. injection Hlast as <-. discriminate Hrole.
Qed.

(** C1, witness. *)
Lemma context_kept_after_delivery_witness :
  Text.startsWith "ctx:100-55" "msgid:" = false
  /\ (doOpenAI_try (Example.env "hi there") Example.command "gpt-4-turbo-preview"
        Example.turns_A "ctx:100-55" Example.start).1 = Returned tt
  /\ redis (doOpenAI_try (Example.env "hi there") Example.command "gpt-4-turbo-preview"
              Example.turns_A "ctx:100-55" Example.start).2 !! "ctx:100-55"
     = Some (JSON.stringify Example.context_A).
Proof.
  split; [reflexivity|]. split; [reflexivity|].
  destruct (context_kept_after_delivery (Example.env "hi there") Example.command
              "gpt-4-turbo-preview" Example.turns_A "ctx:100-55" Example.start
              eq_refl eq_refl) as (respmsg & resp & reply & rest & _ & _ & _ & H).
  exact H.
Defined.

(** C2, counterexample. After scenario A and a reply to the bot's answer,
    the reachable store holds, under the context id, the primer followed
    by two user turns in a row. *)
Lemma user_turns_do_not_alternate :
  reachable Reader.parse (redis Example.after_continuation)
  /\ redis Example.after_continuation !! "ctx:100-55"
     = Some (JSON.stringify Example.context_B)
  /\ map role (params Example.context_B) = [system; user; user]
  /\ strictly_alternates (params Example.context_B) = false.
Proof.
  split; [|split; [vm_compute; reflexivity | split; reflexivity]].
  assert (reachable Reader.parse (redis Example.after_command)) as Hfirst.
  { apply (reach_update Reader.parse ∅ (Example.env "hi there") Example.botID
             Example.state Example.command []). constructor. }
  assert (Example.after_command
          = {| redis := redis Example.after_command; trace := trace Example.after_command |})
    as Heta by (destruct Example.after_command; reflexivity).
  unfold Example.after_continuation. rewrite Heta.
  apply reach_update. exact Hfirst.
Qed.

(** C2, witness. *)
Lemma stored_turns_only_grow_witness :
  (forall c, Reader.parse (JSON.stringify c) = JSON.Context c)
  /\ reachable Reader.parse (redis Example.after_command)
  /\ exists c us, JSON.stringify Example.context_A = JSON.stringify c
       /\ params c = SYSTEM_PRIMER :: map user_turn us /\ us <> [].
Proof.
  assert (reachable Reader.parse (redis Example.after_command)) as Hreach.
  { apply (reach_update Reader.parse ∅ (Example.env "hi there") Example.botID
             Example.state Example.command []). constructor. }
  split; [exact parse_stringify|]. split; [exact Hreach|].
  destruct (stored_turns_only_grow Reader.parse (redis Example.after_command)
              parse_stringify Hreach) as [Hshape _].
  apply (Hshape "ctx:100-55"); [reflexivity | vm_compute; reflexivity].
Defined.

(** C5, witness. *)
Lemma scenario_C_witness :
  String.length (newline +:+ Example.long_answer) = 5000
  /\ exists (m0 m1 m2 : Message),
       redis (doOpenAI (Example.env Example.long_answer) Example.command
                "gpt-4-turbo-preview" Example.turns_A "ctx:100-55" Example.start).2
         !! getMessageId m0 = Some "ctx:100-55"
       /\ redis (doOpenAI (Example.env Example.long_answer) Example.command
                   "gpt-4-turbo-preview" Example.turns_A "ctx:100-55" Example.start).2
            !! getMessageId m1 = Some "ctx:100-55"
       /\ redis (doOpenAI (Example.env Example.long_answer) Example.command
                   "gpt-4-turbo-preview" Example.turns_A "ctx:100-55" Example.start).2
            !! getMessageId m2 = Some "ctx:100-55".
Proof.
  assert (String.length (newline +:+ Example.long_answer) = 5000) as Hlen
    by (vm_compute; reflexivity).
  split; [exact Hlen|].
  destruct (scenario_C (Example.env Example.long_answer) Example.command
              "gpt-4-turbo-preview" Example.turns_A "ctx:100-55" Example.start
              (Example.one_choice Example.long_answer) (newline +:+ Example.long_answer))
    as (m0 & m1 & m2 & f0 & f1 & f2 & _ & _ & _ & _ & H0 & H1 & H2).
  - intros n chat body reply_to mode. eexists. reflexivity.
  - reflexivity.
  - reflexivity.
  - reflexivity.
  - exact Hlen.
  - exists m0, m1, m2. auto.
Defined.


(** C9, witness. *)
Lemma scenario_A_witness :
  100%Z ∈ AppState.whitelist Example.state
  /\ redis (on_message (Example.env "hi there") Reader.parse Example.botID Example.state
              (scenario_A_message (Some 1%Z) None) Example.start).2 !! "ctx:100-55"
     = Some (JSON.stringify Example.context_A).
Proof.
  assert (100%Z ∈ AppState.whitelist Example.state) as Hwhite by (cbn; set_solver).
  split; [exact Hwhite|].
  apply (scenario_A (Example.env "hi there") Reader.parse Example.botID Example.state
           Example.start (Some 1%Z) None
           (Example.sent 0 100 (waiting_text "gpt-4-turbo-preview")) Hwhite eq_refl).
Defined.


(** C4, witness: the whole run of scenario A is a prefix that contains the
    provider call. *)
Lemma placeholder_linked_before_provider_witness :
  exists respmsg res rest,
    trace (doOpenAI (Example.env "hi there") Example.command "gpt-4-turbo-preview"
             Example.turns_A "ctx:100-55" Example.start).2
    = EvSendMessage 100 (waiting_text "gpt-4-turbo-preview") (Some 55%Z)
        (Some Markdown) (inr respmsg)
      :: EvRedisSet "ctx:100-55" (JSON.stringify Example.context_A)
      :: EvRedisSet (getMessageId respmsg) "ctx:100-55"
      :: EvCompletion "gpt-4-turbo-preview" Example.turns_A res
      :: rest.
Proof.
  destruct (placeholder_linked_before_provider (Example.env "hi there") Example.command
              "gpt-4-turbo-preview" Example.turns_A "ctx:100-55" Example.start)
    as (evs & [Htrace _] & H).
  change (trace Example.start ++ evs) with evs in Htrace. rewrite Htrace.
  destruct (H evs) as [Hfirst _]; [reflexivity|].
  apply (Hfirst (EvCompletion "gpt-4-turbo-preview" Example.turns_A
                   (inr (Example.one_choice "hi there")))); [|reflexivity].
  rewrite <- Htrace. vm_compute. find_event.
Defined.

(** C7, witness: the transport refuses Markdown and accepts plain text; both
    fragments are delivered and the loop ends normally. *)
Lemma markdown_then_plaintext_witness :
  (doWriteReply (Example.env_plain Example.two_parts)
     (Some (newline +:+ Example.two_parts)) Example.placeholder "ctx:100-55"
     Example.start).1 = Returned tt
  /\ omap delivered_body
       (trace (doWriteReply (Example.env_plain Example.two_parts)
                 (Some (newline +:+ Example.two_parts)) Example.placeholder "ctx:100-55"
                 Example.start).2)
     = split_parts (newline +:+ Example.two_parts).
Proof.
  destruct (markdown_then_plaintext (Example.env_plain Example.two_parts)
              (newline +:+ Example.two_parts) Example.placeholder "ctx:100-55"
              Example.start)
    as (evs & [Htrace _] & _ & _ & _ & H).
  change (trace Example.start ++ evs) with evs in Htrace. rewrite Htrace.
  apply H. intros ev Hin. rewrite <- Htrace in Hin. vm_compute in Hin.
  repeat (apply elem_of_cons in Hin as [->|Hin];
          [first [intros _; reflexivity | intros Hmd; discriminate Hmd]|]).
  inversion Hin.
Defined.


(** When the transport accepts the plain-text retry of a fragment and
    refuses the notice that follows, the handler stops before the link of
    that fragment is written: the delivered message has no link. *)
Example refused_notice_skips_link :
  let run := doOpenAI_try (Example.env_no_notice Example.two_parts) Example.command
               "gpt-4-turbo-preview" Example.turns_A "ctx:100-55" Example.start in
  run.1 = Thrown Example.refusal
  /\ map (fun ev => (delivered_key ev, accepted ev)) (drop 5 (trace run.2))
     = [(None, false); (Some "msgid:100-1006", true); (None, false)]
  /\ redis run.2 !! "msgid:100-1006" = None.
Proof. vm_compute. repeat split. Qed.

(** Scenario B: a reply to the bot's answer loads the context, appends the
    user's turn and calls the provider with three turns. *)
Example scenario_B :
  EvCompletion "gpt-4-turbo-preview"
    (Example.turns_A ++ [{| role := user; content := "tell me more" |}])
    (inr (Example.one_choice "more"))
    ∈ trace Example.after_continuation.
Proof. vm_compute. find_event. Qed.

(** Scenario D: a reply to a message of the bot that has no link gets the
    notice, and the store is not touched. *)
Example scenario_D :
  let run := on_message (Example.env "more") Reader.parse Example.botID Example.state
               Example.stray_reply Example.after_command in
  run.1 = Returned tt
  /\ drop 5 (trace run.2)
     = [EvRedisGet "msgid:100-4242" None;
        EvSendMessage 100 NO_CONTEXT (Some 57%Z) None (inr (Example.sent 6 100 NO_CONTEXT))]
  /\ redis run.2 = redis Example.after_command.
Proof. vm_compute. repeat split. Qed.

(** ** Store keys *)

Section Keys.

Lemma pretty_N_go_digits (x : N) : forall s,
  all_digits s = true -> all_digits (pretty_N_go x s) = true.
Proof.
  induction (N.lt_wf_0 x) as [x _ IH]; intros s Hs.
  destruct (decide (x = 0)%N) as [->|Hx].
  - rewrite pretty_N_go_0. exact Hs.
  - rewrite pretty_N_go_step by lia. apply IH.
    + apply N.div_lt; lia.
    + cbn [all_digits]. rewrite Hs, andb_true_r.
      assert (x `mod` 10 < 10)%N as Hm by (apply N.mod_lt; lia).
      destruct (x `mod` 10)%N as [|p]; [reflexivity|].
      do 4 (destruct p as [p|p|]; try reflexivity; try lia).
Qed.

Lemma pretty_N_digits (x : N) : all_digits (pretty x) = true /\ pretty x <> EmptyString.
Proof.
  unfold pretty, pretty_N. destruct (decide (x = 0)%N) as [->|Hx].
  - split; [reflexivity | discriminate].
  - split; [apply pretty_N_go_digits; reflexivity|].
    rewrite pretty_N_go_step by lia. intros H.
    pose proof (pretty_N_go_ne_0 (x `div` 10)
                  (String (pretty_N_char (x `mod` 10)) EmptyString)) as Hne.
    apply (f_equal String.length) in H.
    assert (forall y s, String.length s <= String.length (pretty_N_go y s)) as Hlen.
    { clear. intros y. induction (N.lt_wf_0 y) as [y _ IH]; intros s.
      destruct (decide (y = 0)%N) as [->|Hy]; [rewrite pretty_N_go_0; lia|].
      rewrite pretty_N_go_step by lia.
      etransitivity; [|apply IH; apply N.div_lt; lia]. cbn. lia. }
    specialize (Hlen (x `div` 10)%N (String (pretty_N_char (x `mod` 10)) EmptyString)).
    rewrite H in Hlen. cbn in Hlen. lia.
Qed.

Lemma span_digits_app (ds rest : string) :
  all_digits ds = true ->
  (forall c r, rest = String c r -> is_digit c = false) ->
  span_digits (ds +:+ rest) = (ds, rest).
Proof.
  intros Hds Hrest. induction ds as [|c ds IH].
  - rewrite append_empty. destruct rest as [|c r]; [reflexivity|].
    cbn [span_digits]. rewrite (Hrest c r eq_refl). reflexivity.
  - cbn [all_digits] in Hds. apply andb_true_iff in Hds as [Hc Hds].
    rewrite append_cons. cbn [span_digits]. rewrite Hc, (IH Hds). reflexivity.
Qed.

(** The decimal text of an integer is read back whole when no digit
    follows it. *)
Lemma span_integer_pretty (z : Z) (rest : string) :
  (forall c r, rest = String c r -> is_digit c = false) ->
  span_integer (pretty z +:+ rest) = (pretty z, rest).
Proof.
  intros Hrest. unfold pretty, pretty_Z. destruct z as [|p|p].
  - change (span_digits ("0" +:+ rest) = ("0", rest)).
    apply span_digits_app; [reflexivity | exact Hrest].
  - destruct (pretty_N_digits (N.pos p)) as [Hd Hne].
    change (pretty p) with (pretty (N.pos p)).
    destruct (pretty (N.pos p)) as [|c ds] eqn:E; [congruence|].
    unfold span_integer. rewrite append_cons.
    cbn [all_digits] in Hd. apply andb_true_iff in Hd as [Hc Hd].
    destruct (Ascii.eqb_spec c "-") as [->|Hc'].
    { discriminate Hc. }
    assert (span_digits (String c (ds +:+ rest)) = (String c ds, rest)) as Hs.
    { cbn [span_digits]. rewrite Hc, span_digits_app by assumption. reflexivity. }
    rewrite <- Hs.
    destruct c as [[] [] [] [] [] [] [] []]; try reflexivity; congruence.
  - destruct (pretty_N_digits (N.pos p)) as [Hd Hne].
    change (pretty p) with (pretty (N.pos p)).
    change (span_integer (String "-" (pretty (N.pos p) +:+ rest))
            = (String "-" (pretty (N.pos p)), rest)).
    change (span_integer (String "-" (pretty (N.pos p) +:+ rest)))
      with (let '(ds, r) := span_digits (pretty (N.pos p) +:+ rest) in (String "-" ds, r)).
    rewrite span_digits_app by assumption. reflexivity.
Qed.

End Keys.

(** X1. A message key names one message: two messages with the same key have
    the same chat id and the same message id.  The same holds for the
    context ids that [dispatch] derives. *)
Theorem getMessageId_inj (m m' : Message) :
  (getMessageId m = getMessageId m' ->
     chat_id m = chat_id m' /\ message_id m = message_id m')
  /\ (new_context_id m = new_context_id m' ->
        chat_id m = chat_id m' /\ message_id m = message_id m').
Proof.
  assert (forall a b a' b' : Z,
            pretty a +:+ "-" +:+ pretty b = pretty a' +:+ "-" +:+ pretty b' ->
            a = a' /\ b = b') as Hpair.
  { intros a b a' b' H.
    assert (forall r, forall c r', "-" +:+ r = String c r' -> is_digit c = false) as Hdash.
    { intros r c r' [= <- _]. reflexivity. }
    pose proof (span_integer_pretty a ("-" +:+ pretty b) (Hdash _)) as Ha.
    pose proof (span_integer_pretty a' ("-" +:+ pretty b') (Hdash _)) as Ha'.
    rewrite H, Ha' in Ha. injection Ha as Hp Hr.
    rewrite !append_empty in Hr.
    split; apply (inj pretty); congruence. }
  split; intros H.
  - apply Hpair. unfold getMessageId in H.
    repeat (rewrite append_cons in H; injection H as H).
    rewrite !append_empty in H. exact H.
  - apply Hpair. unfold new_context_id in H.
    repeat (rewrite append_cons in H; injection H as H).
    rewrite !append_empty in H. exact H.
Qed.

(** ** The command pattern *)

Section Pattern.

Lemma strip_prefix_app (p s r : string) :
  Text.strip_prefix p s = Some r -> s = p +:+ r.
Proof.
  revert s. induction p as [|a p IH]; intros s H.
  - injection H as ->. reflexivity.
  - destruct s as [|b s]; [discriminate H|]. cbn [Text.strip_prefix] in H.
    destruct (Ascii.eqb_spec a b) as [->|]; [|discriminate H].
    rewrite append_cons, (IH s H). reflexivity.
Qed.

Lemma strip_prefix_here (p r : string) : Text.strip_prefix p (p +:+ r) = Some r.
Proof.
  induction p as [|a p IH]; [reflexivity|].
  rewrite append_cons. cbn [Text.strip_prefix]. rewrite Ascii.eqb_refl. exact IH.
Qed.

Lemma match_payload_text g1 g2 s g :
  Command.match_payload g1 g2 s = Some g ->
  s = " " +:+ Command.payload g
  /\ Command.payload g <> EmptyString
  /\ Command.variant g = g1 /\ Command.mention g = g2.
Proof.
  unfold Command.match_payload. intros H.
  destruct (Text.strip_prefix " " s) as [[|c rest]|] eqn:E; try discriminate H.
  injection H as <-. cbn. apply strip_prefix_app in E. auto.
Qed.

Lemma match_mention_text g1 s g :
  Command.match_mention g1 s = Some g ->
  s = group_text (Command.mention g) +:+ " " +:+ Command.payload g
  /\ Command.payload g <> EmptyString
  /\ Command.variant g = g1
  /\ (Command.mention g = None \/ Command.mention g = Some Command.BOT_MENTION).
Proof.
  unfold Command.match_mention. intros H.
  destruct (Text.strip_prefix Command.BOT_MENTION s) as [s'|] eqn:E.
  - destruct (Command.match_payload g1 (Some Command.BOT_MENTION) s') as [g'|] eqn:E'.
    + injection H as ->. apply match_payload_text in E' as (Hs & Hp & Hv & Hm).
      apply strip_prefix_app in E. rewrite Hm. cbn [group_text].
      rewrite E, Hs. auto.
    + apply match_payload_text in H as (Hs & Hp & Hv & Hm).
      rewrite Hm. cbn [group_text]. rewrite append_empty. auto.
  - apply match_payload_text in H as (Hs & Hp & Hv & Hm).
    rewrite Hm. cbn [group_text]. rewrite append_empty. auto.
Qed.

Lemma match_here_text s g :
  Command.match_here s = Some g ->
  s = command_text g
  /\ Command.payload g <> EmptyString
  /\ (Command.variant g = EmptyString \/ Command.variant g = "3")
  /\ (Command.mention g = None \/ Command.mention g = Some Command.BOT_MENTION).
Proof.
  unfold Command.match_here, command_text. intros H.
  destruct (Text.strip_prefix "/openai" s) as [s1|] eqn:E; [|discriminate H].
  apply strip_prefix_app in E.
  destruct (Command.match_mention EmptyString s1) as [g'|] eqn:E1.
  - injection H as ->. apply match_mention_text in E1 as (Hs & Hp & Hv & Hm).
    rewrite Hv, append_empty, E, Hs. auto.
  - destruct (Text.strip_prefix "3" s1) as [s2|] eqn:E2; [|discriminate H].
    apply strip_prefix_app in E2.
    apply match_mention_text in H as (Hs & Hp & Hv & Hm).
    rewrite Hv, E, E2, Hs. auto.
Qed.

Lemma search_text (s : string) : forall (line_start : bool) (g : Command.Groups),
  Command.search line_start s = Some g ->
  exists before,
    s = before +:+ command_text g
    /\ ((line_start = true /\ before = EmptyString)
        \/ exists b c, before = b +:+ String c EmptyString
             /\ Command.is_line_terminator c = true)
    /\ Command.payload g <> EmptyString
    /\ (Command.variant g = EmptyString \/ Command.variant g = "3")
    /\ (Command.mention g = None \/ Command.mention g = Some Command.BOT_MENTION).
Proof.
  induction s as [|c s IH]; intros line_start g H.
  - cbn [Command.search] in H. destruct line_start; [|discriminate H].
    destruct (Command.match_here EmptyString) eqn:E; [|discriminate H].
    injection H as ->. apply match_here_text in E as (Hs & Hrest).
    exists EmptyString. rewrite append_empty. split; [exact Hs|]. split; [auto | exact Hrest].
  - cbn [Command.search] in H.
    destruct (if line_start then Command.match_here (String c s) else None) as [g'|] eqn:E.
    + injection H as ->. destruct line_start; [|discriminate E].
      apply match_here_text in E as (Hs & Hrest).
      exists EmptyString. rewrite append_empty. split; [exact Hs|]. split; [auto | exact Hrest].
    + apply IH in H as (before & Hs & Hline & Hrest).
      exists (String c before). rewrite append_cons, Hs. split; [reflexivity|].
      split; [|exact Hrest]. right.
      destruct Hline as [[Hterm ->] | (b & c' & -> & Hterm)].
      * exists EmptyString, c. auto.
      * exists (String c b), c'. auto.
Qed.

End Pattern.

(** X2. Whenever the command pattern matches a text, the text is: some text
    that is empty or ends with a line terminator, then [/openai], the
    variant (nothing or [3]), the bot mention or nothing, one space, and a
    payload that is not empty and runs to the end of the text. *)
Theorem command_match_sound (txt : string) (g : Command.Groups) :
  Command.match_MSG_REGEX txt = Some g ->
  exists before,
    txt = before +:+ command_text g
    /\ ends_line before
    /\ Command.payload g <> EmptyString
    /\ (Command.variant g = EmptyString \/ Command.variant g = "3")
    /\ (Command.mention g = None \/ Command.mention g = Some Command.BOT_MENTION).
Proof.
  intros H. apply search_text in H as (before & Hs & Hline & Hrest).
  exists before. split; [exact Hs|]. split; [|exact Hrest].
  destruct Hline as [[_ ->] | (b & c & -> & Hc)]; [left; reflexivity|].
  right. eauto.
Qed.

(** X2, witness. *)
Lemma command_match_sound_witness :
  exists before,
    ("see below" +:+ newline +:+ "/openai3 two" +:+ newline +:+ "lines")%string
    = before +:+ command_text {| Command.variant := "3"; Command.mention := None;
                                 Command.payload := "two" +:+ newline +:+ "lines" |}
    /\ ends_line before.
Proof.
  destruct (command_match_sound
              ("see below" +:+ newline +:+ "/openai3 two" +:+ newline +:+ "lines")
              {| Command.variant := "3"; Command.mention := None;
                 Command.payload := "two" +:+ newline +:+ "lines" |} eq_refl)
    as (before & H1 & H2 & _).
  exists before. auto.
Defined.

(** X3. A text that begins with [/openai], an optional [3], an optional bot
    mention, a space and a payload that is not empty is matched at its
    start, with exactly these groups: the payload is everything after the
    space, whatever it contains. *)
Theorem command_match_complete (g : Command.Groups) :
  Command.payload g <> EmptyString ->
  (Command.variant g = EmptyString \/ Command.variant g = "3") ->
  (Command.mention g = None \/ Command.mention g = Some Command.BOT_MENTION) ->
  Command.match_MSG_REGEX (command_text g) = Some g.
Proof.
  destruct g as [v m p]. cbn [Command.payload Command.variant Command.mention].
  intros Hp Hv Hm. destruct p as [|c p]; [congruence|].
  unfold Command.match_MSG_REGEX, command_text.
  cbn [Command.payload Command.variant Command.mention].
  assert (Command.match_here
            ("/openai" +:+ v +:+ group_text m +:+ " " +:+ String c p)
          = Some {| Command.variant := v; Command.mention := m; Command.payload := String c p |})
    as Hhere.
  { unfold Command.match_here. rewrite strip_prefix_here.
    assert (forall g1, Command.match_mention g1 (group_text m +:+ " " +:+ String c p)
              = Some {| Command.variant := g1; Command.mention := m;
                        Command.payload := String c p |}) as Hmention.
    { intros g1. unfold Command.match_mention.
      destruct Hm as [-> | ->]; cbn [group_text].
      - rewrite append_empty. reflexivity.
      - rewrite strip_prefix_here. reflexivity. }
    destruct Hv as [-> | ->].
    - rewrite append_empty, Hmention. reflexivity.
    - assert (Command.match_mention EmptyString
                ("3" +:+ group_text m +:+ " " +:+ String c p) = None) as ->.
      { reflexivity. }
      rewrite strip_prefix_here. apply Hmention. }
  destruct ("/openai" +:+ v +:+ group_text m +:+ " " +:+ String c p) as [|x s] eqn:E.
  - cbn [Command.search]. rewrite Hhere. reflexivity.
  - cbn [Command.search]. rewrite Hhere. reflexivity.
Qed.

(** X3, witness. *)
Lemma command_match_complete_witness :
  Command.match_MSG_REGEX ("/openai@babababababababababababababot what is 2+2?")
  = Some {| Command.variant := EmptyString; Command.mention := Some Command.BOT_MENTION;
            Command.payload := "what is 2+2?" |}.
Proof.
  apply (command_match_complete
           {| Command.variant := EmptyString; Command.mention := Some Command.BOT_MENTION;
              Command.payload := "what is 2+2?" |}).
  - discriminate.
  - left. reflexivity.
  - right. reflexivity.
Defined.

(** ** The listener *)

(** X4. A command from a whitelisted chat starts a new conversation, also
    when the message is a reply to the bot: once the transport has accepted
    the placeholder, the store holds under the context id of the message the
    selected model ([gpt-3.5-turbo] for [/openai3], the configured model
    otherwise) and two turns, the system primer and the payload as a user
    turn. *)
Theorem command_starts_conversation (env : Env) (JSON_parse : string -> JSON.Parsed)
    (botID : Z) (state : AppState.t) (usermsg : Message) (w : World)
    (txt : string) (g : Command.Groups) (respmsg : Message) :
  chat_id usermsg ∈ AppState.whitelist state ->
  text usermsg = Some txt ->
  Command.match_MSG_REGEX txt = Some g ->
  tg_sendMessage env (length (trace w)) (chat_id usermsg)
    (waiting_text (command_model state g)) (Some (message_id usermsg)) (Some Markdown)
  = inr respmsg ->
  on_message env JSON_parse botID state usermsg w
  = doOpenAI env usermsg (command_model state g)
      [SYSTEM_PRIMER; user_turn (Command.payload g)] (new_context_id usermsg) w
  /\ redis (on_message env JSON_parse botID state usermsg w).2 !! new_context_id usermsg
     = Some (JSON.stringify
               {| model := command_model state g;
                  params := [SYSTEM_PRIMER; user_turn (Command.payload g)] |}).
Proof.
  intros Hwhite Htext Hmatch Hsend.
  assert (on_message env JSON_parse botID state usermsg w
          = doOpenAI env usermsg (command_model state g)
              [SYSTEM_PRIMER; user_turn (Command.payload g)] (new_context_id usermsg) w)
    as Heq.
  { unfold on_message. rewrite (bool_decide_eq_true_2 _ Hwhite), Htext. cbn [negb].
    destruct txt as [|c txt]; [discriminate Hmatch|]. cbn [Text.truthy negb].
    rewrite Hmatch. reflexivity. }
  split; [exact Heq|]. rewrite Heq.
  apply (doOpenAI_store env _ _ _ _ w respmsg); [reflexivity | exact Hsend].
Qed.

(** X4, witness: a command for the other model, sent as a reply to the bot. *)
Lemma command_starts_conversation_witness :
  redis (on_message (Example.env "hi") Reader.parse Example.botID Example.state
           (mkMessage 100 77 (Some 1%Z) (Some "/openai3 hello")
              (Some (mkMessage 100 1000 (Some Example.botID) None None)))
           Example.after_command).2 !! "ctx:100-77"
  = Some (JSON.stringify
            {| model := "gpt-3.5-turbo";
               params := [SYSTEM_PRIMER; user_turn "hello"] |}).
Proof.
  assert (100%Z ∈ AppState.whitelist Example.state) as Hwhite by apply list_elem_of_here.
  apply (command_starts_conversation (Example.env "hi") Reader.parse Example.botID
           Example.state
           (mkMessage 100 77 (Some 1%Z) (Some "/openai3 hello")
              (Some (mkMessage 100 1000 (Some Example.botID) None None)))
           Example.after_command "/openai3 hello"
           {| Command.variant := "3"; Command.mention := None; Command.payload := "hello" |}
           (Example.sent 5 100 (waiting_text "gpt-3.5-turbo")) Hwhite eq_refl eq_refl eq_refl).
Defined.



(** X6. The listener drops, without any call to the transport, the store or
    the provider, every update of a whitelisted chat that has no text or an
    empty text, that is neither a command nor a reply to the bot, or that
    replies to the bot with a text starting with two single quotes or two
    slashes. *)
Theorem dropped_updates_do_nothing (env : Env) (JSON_parse : string -> JSON.Parsed)
    (botID : Z) (state : AppState.t) (usermsg : Message) (w : World) :
  chat_id usermsg ∈ AppState.whitelist state ->
  dropped botID usermsg ->
  on_message env JSON_parse botID state usermsg w = (Returned tt, w).
Proof.
  intros Hwhite Hdrop. unfold on_message, dropped in *.
  rewrite (bool_decide_eq_true_2 _ Hwhite). cbn [negb].
  destruct (text usermsg) as [txt|]; [|reflexivity].
  destruct Hdrop as [-> | [Hmatch Hdrop]]; [reflexivity|].
  destruct (negb (Text.truthy txt)); [reflexivity|].
  rewrite Hmatch.
  destruct (is_replying_to_bot botID usermsg); [|reflexivity].
  destruct Hdrop as [Hdrop | [-> | ->]]; [discriminate Hdrop | reflexivity |].
  rewrite orb_true_r. reflexivity.
Qed.

(** X6, witness: a reply to the bot that starts with two slashes. *)
Lemma dropped_updates_do_nothing_witness :
  on_message (Example.env "hi") Reader.parse Example.botID Example.state
    (mkMessage 100 58 (Some 1%Z) (Some "// note to self")
       (Some (mkMessage 100 1000 (Some Example.botID) None None)))
    Example.after_command
  = (Returned tt, Example.after_command).
Proof.
  apply dropped_updates_do_nothing.
  - apply list_elem_of_here.
  - right. split; [reflexivity|]. right. right. reflexivity.
Defined.

(** ** Errors and edge cases of [doOpenAI] *)

(** X7. No error of the [try] block leaves [doOpenAI]: a refused placeholder,
    a failing provider, a reply that is [undefined], a refused fragment.
    When the transport accepts the generic notice, [doOpenAI] returns
    normally, and when the [try] block threw, that notice is its last
    call. *)
Theorem doOpenAI_contains_errors (env : Env) (usermsg : Message) (model : string)
    (messages : list Turn) (context_id : string) (w : World) :
  (forall n, exists m,
      tg_sendMessage env n (chat_id usermsg) INTERNAL_ERROR None None = inr m) ->
  (doOpenAI env usermsg model messages context_id w).1 = Returned tt
  /\ (forall e, (doOpenAI_try env usermsg model messages context_id w).1 = Thrown e ->
        exists m,
          trace (doOpenAI env usermsg model messages context_id w).2
          = trace (doOpenAI_try env usermsg model messages context_id w).2
              ++ [EvSendMessage (chat_id usermsg) INTERNAL_ERROR None None (inr m)]
          /\ redis (doOpenAI env usermsg model messages context_id w).2
             = redis (doOpenAI_try env usermsg model messages context_id w).2).
Proof.
  intros Hnotice. unfold doOpenAI, try_catch.
  destruct (doOpenAI_try env usermsg model messages context_id w) as [[[]|e] w1];
    cbn [fst snd].
  - split; [reflexivity|]. intros e H. discriminate H.
  - monad_unfold. destruct (Hnotice (length (trace w1))) as [m Hm]. rewrite Hm.
    cbn [fst snd trace redis]. split; [reflexivity|]. intros e' _. eauto.
Qed.

(** X7, witness: the provider fails. *)
Lemma doOpenAI_contains_errors_witness :
  (doOpenAI
     {| tg_sendMessage := tg_sendMessage (Example.env "hi");
        tg_editMessageText := tg_editMessageText (Example.env "hi");
        openai_create := fun _ _ _ => inl Example.refusal |}
     Example.command "gpt-4-turbo-preview" Example.turns_A "ctx:100-55" Example.start).1
  = Returned tt.
Proof.
  apply doOpenAI_contains_errors.
  intros n. eexists. reflexivity.
Defined.

(** X8. When the response of the provider has no [choices], the assembled
    reply is [undefined] and reading its length throws: after the
    placeholder, the stored context, the link and the provider call, the
    only further call is the generic notice; the placeholder is not
    edited. *)
Theorem missing_choices_reported (env : Env) (usermsg : Message) (model : string)
    (messages : list Turn) (context_id : string) (w : World)
    (respmsg : Message) (resp : Completion) :
  tg_sendMessage env (length (trace w)) (chat_id usermsg) (waiting_text model)
    (Some (message_id usermsg)) (Some Markdown) = inr respmsg ->
  openai_create env (length (trace w) + 3) model messages = inr resp ->
  choices resp = None ->
  exists res,
    trace (doOpenAI env usermsg model messages context_id w).2
    = trace w ++
      [EvSendMessage (chat_id usermsg) (waiting_text model)
         (Some (message_id usermsg)) (Some Markdown) (inr respmsg);
       EvRedisSet context_id (JSON.stringify {| model := model; params := messages |});
       EvRedisSet (getMessageId respmsg) context_id;
       EvCompletion model messages (inr resp);
       EvSendMessage (chat_id usermsg) INTERNAL_ERROR None None res]
    /\ (doOpenAI env usermsg model messages context_id w).1
       = match res with inl e => Thrown e | inr _ => Returned tt end.
Proof.
  intros Hsend Hcreate Hchoices.
  unfold doOpenAI, doOpenAI_try, getOpenAIReply. monad_unfold.
  rewrite Hsend. cbn [fst snd trace redis].
  rewrite !length_app. cbn [length].
  replace (length (trace w) + 1 + 1 + 1) with (length (trace w) + 3) by lia.
  rewrite Hcreate. cbn [fst snd trace redis].
  unfold assemble_reply. rewrite Hchoices. unfold doWriteReply, throw.
  cbn [fst snd trace redis].
  match goal with |- context [tg_sendMessage env ?n ?c ?b ?r ?m] =>
    destruct (tg_sendMessage env n c b r m) as [e|m'] eqn:E
  end; cbn [fst snd trace redis]; eexists;
    (split; [rewrite <- !app_assoc; reflexivity | reflexivity]).
Qed.

(** X8, witness. *)
Lemma missing_choices_reported_witness :
  (doOpenAI
     {| tg_sendMessage := tg_sendMessage (Example.env "hi");
        tg_editMessageText := tg_editMessageText (Example.env "hi");
        openai_create := fun _ _ _ => inr {| choices := None |} |}
     Example.command "gpt-4-turbo-preview" Example.turns_A "ctx:100-55" Example.start).1
  = Returned tt.
Proof.
  destruct (missing_choices_reported
              {| tg_sendMessage := tg_sendMessage (Example.env "hi");
                 tg_editMessageText := tg_editMessageText (Example.env "hi");
                 openai_create := fun _ _ _ => inr {| choices := None |} |}
              Example.command "gpt-4-turbo-preview" Example.turns_A "ctx:100-55"
              Example.start Example.placeholder {| choices := None |}
              eq_refl eq_refl eq_refl) as (res & Htrace & Hout).
  rewrite Hout. vm_compute in Htrace.
  injection Htrace as <-. reflexivity.
Defined.

(** X9. When the response of the provider has an empty list of choices, the
    reply is the empty text, there is no fragment, and [doOpenAI] ends
    normally without a delivery: the placeholder keeps its waiting text. *)
Theorem empty_reply_not_delivered (env : Env) (usermsg : Message) (model : string)
    (messages : list Turn) (context_id : string) (w : World)
    (respmsg : Message) :
  tg_sendMessage env (length (trace w)) (chat_id usermsg) (waiting_text model)
    (Some (message_id usermsg)) (Some Markdown) = inr respmsg ->
  openai_create env (length (trace w) + 3) model messages = inr {| choices := Some [] |} ->
  doOpenAI env usermsg model messages context_id w
  = (Returned tt,
     {| redis := <[getMessageId respmsg := context_id]>
                   (<[context_id := JSON.stringify {| model := model; params := messages |}]>
                      (redis w));
        trace := trace w ++
          [EvSendMessage (chat_id usermsg) (waiting_text model)
             (Some (message_id usermsg)) (Some Markdown) (inr respmsg);
           EvRedisSet context_id (JSON.stringify {| model := model; params := messages |});
           EvRedisSet (getMessageId respmsg) context_id;
           EvCompletion model messages (inr {| choices := Some [] |})] |}).
Proof.
  intros Hsend Hcreate.
  unfold doOpenAI, doOpenAI_try, getOpenAIReply. monad_unfold.
  rewrite Hsend. cbn [fst snd trace redis].
  rewrite !length_app. cbn [length].
  replace (length (trace w) + 1 + 1 + 1) with (length (trace w) + 3) by lia.
  rewrite Hcreate. cbn [fst snd trace redis].
  rewrite <- !app_assoc. reflexivity.
Qed.

(** X9, witness. *)
Lemma empty_reply_not_delivered_witness :
  (doOpenAI
     {| tg_sendMessage := tg_sendMessage (Example.env "hi");
        tg_editMessageText := tg_editMessageText (Example.env "hi");
        openai_create := fun _ _ _ => inr {| choices := Some [] |} |}
     Example.command "gpt-4-turbo-preview" Example.turns_A "ctx:100-55" Example.start).1
  = Returned tt.
Proof.
  rewrite (empty_reply_not_delivered
             {| tg_sendMessage := tg_sendMessage (Example.env "hi");
                tg_editMessageText := tg_editMessageText (Example.env "hi");
                openai_create := fun _ _ _ => inr {| choices := Some [] |} |}
             Example.command "gpt-4-turbo-preview" Example.turns_A "ctx:100-55"
             Example.start Example.placeholder eq_refl eq_refl).
  reflexivity.
Defined.

(** ** The fragments and their delivery *)

Section Fragments.

Opaque PART_SIZE.

Lemma parts_loop_length (fuel : nat) (s : string) : forall (i : nat),
  String.length s - i <= fuel ->
  length (parts_loop fuel s i) = (String.length s - i + PART_SIZE - 1) / PART_SIZE.
Proof.
  pose proof PART_SIZE_pos as Hp.
  induction fuel as [|fuel IH]; intros i Hf.
  - cbn [parts_loop length]. symmetry. apply Nat.div_small. lia.
  - cbn [parts_loop].
    destruct (Nat.ltb_spec i (String.length s)) as [Hlt|Hge]; cbn [length].
    + rewrite IH by lia.
      destruct (Nat.le_gt_cases PART_SIZE (String.length s - i)) as [Hbig|Hsmall].
      * replace (String.length s - i + PART_SIZE - 1)
          with ((String.length s - (i + PART_SIZE) + PART_SIZE - 1) + 1 * PART_SIZE) by lia.
        rewrite Nat.div_add by lia. lia.
      * replace (String.length s - (i + PART_SIZE) + PART_SIZE - 1) with (PART_SIZE - 1) by lia.
        rewrite (Nat.div_small (PART_SIZE - 1)) by lia.
        apply (Nat.div_unique _ _ 1 (String.length s - i - 1)); lia.
    + symmetry. apply Nat.div_small. lia.
Qed.

Transparent PART_SIZE.

End Fragments.

(** X10. A text of [n] code units is split into [ceil (n / 2048)] fragments
    (none for the empty text); no fragment is empty, the fragment of index
    [k] has [min 2048 (n - 2048 k)] code units, and every fragment that is
    followed by another has exactly 2048. *)
Theorem split_parts_sizes (T : string) :
  length (split_parts T) = (String.length T + PART_SIZE - 1) / PART_SIZE
  /\ (forall (k : nat) (f : string), split_parts T !! k = Some f ->
        String.length f = Nat.min PART_SIZE (String.length T - k * PART_SIZE)
        /\ 0 < String.length f)
  /\ (forall (k : nat) (f f' : string),
        split_parts T !! k = Some f -> split_parts T !! S k = Some f' ->
        String.length f = PART_SIZE).
Proof.
  pose proof PART_SIZE_pos as Hp.
  assert (forall k f, split_parts T !! k = Some f ->
            String.length f = Nat.min PART_SIZE (String.length T - k * PART_SIZE)
            /\ k * PART_SIZE < String.length T) as Hsize.
  { intros k f H. apply parts_loop_lookup in H as [-> Hk]. cbn [Nat.add] in *.
    rewrite substring_forward, substring_length. auto. }
  split; [|split].
  - unfold split_parts. rewrite parts_loop_length by lia. f_equal. lia.
  - intros k f H. apply Hsize in H as [Hlen Hk]. split; [exact Hlen | lia].
  - intros k f f' H H'. apply Hsize in H as [Hlen _]. apply Hsize in H' as [_ Hk].
    cbn [Nat.mul] in Hk. lia.
Qed.

Section Chain.

Lemma chain_from_app (evs evs' : list Event) : forall current,
  chain_from current (evs ++ evs')
  = chain_from current evs && chain_from (chain_end current evs) evs'.
Proof.
  induction evs as [|ev evs IH]; intros current; [reflexivity|].
  destruct ev as [chat body [r|] mode [e|m] | | | |]; cbn [app chain_from chain_end];
    rewrite ?IH, ?andb_assoc; reflexivity.
Qed.

Lemma chain_end_app (evs evs' : list Event) : forall current,
  chain_end current (evs ++ evs') = chain_end (chain_end current evs) evs'.
Proof.
  induction evs as [|ev evs IH]; intros current; [reflexivity|].
  destruct ev as [chat body [r|] mode [e|m] | | | |]; cbn [app chain_end];
    rewrite ?IH; reflexivity.
Qed.

Lemma part_run_chain i part respmsg prevmsg context_id evs r :
  part_run i part respmsg prevmsg context_id evs r ->
  chain_from (message_id prevmsg) evs = true
  /\ forall prevmsg', r = Returned prevmsg' ->
       chain_end (message_id prevmsg) evs = message_id prevmsg'.
Proof.
  intros H. destruct H; unfold attempt, link_events, next_prevmsg; destruct (i =? 0);
    cbn [chain_from chain_end]; rewrite ?Z.eqb_refl; cbn [andb];
    (split; [reflexivity|]); intros prevmsg' Hr;
    first [discriminate Hr | injection Hr as <-; reflexivity].
Qed.

Lemma parts_run_chain respmsg context_id i rest prevmsg evs r :
  parts_run respmsg context_id i rest prevmsg evs r ->
  chain_from (message_id prevmsg) evs = true.
Proof.
  induction 1 as [| i part rest prevmsg evs e Hp | i part rest prevmsg prevmsg' evs evs' r Hp Hr IH].
  - reflexivity.
  - apply (part_run_chain _ _ _ _ _ _ _ Hp).
  - destruct (part_run_chain _ _ _ _ _ _ _ Hp) as [Hchain Hend].
    rewrite chain_from_app, Hchain, (Hend prevmsg' eq_refl). exact IH.
Qed.

Lemma part_run_confined i part respmsg prevmsg context_id evs r :
  part_run i part respmsg prevmsg context_id evs r ->
  forall ev, ev ∈ evs -> confined respmsg context_id ev.
Proof.
  intros H ev Hin.
  destruct H; unfold attempt, link_events in Hin; destruct (i =? 0);
    repeat (apply elem_of_cons in Hin as [->|Hin]; [cbn; eauto|]); inversion Hin.
Qed.

Lemma parts_run_confined respmsg context_id i rest prevmsg evs r :
  parts_run respmsg context_id i rest prevmsg evs r ->
  forall ev, ev ∈ evs -> confined respmsg context_id ev.
Proof.
  induction 1 as [| i part rest prevmsg evs e Hp | i part rest prevmsg prevmsg' evs evs' r Hp Hr IH];
    intros ev Hin.
  - inversion Hin.
  - eapply part_run_confined; eassumption.
  - apply elem_of_app in Hin as [Hin|Hin]; [|apply IH; exact Hin].
    eapply part_run_confined; eassumption.
Qed.

End Chain.

(** X11. In every execution of [doWriteReply], whatever the transport
    accepts or refuses, each message that is sent as a reply replies to the
    message of the fragment delivered before it, the placeholder for the
    first one: the fragments form one chain. *)
Theorem fragments_form_a_chain (env : Env) (reply : string) (respmsg : Message)
    (context_id : string) (w : World) :
  exists evs,
    extends w (doWriteReply env (Some reply) respmsg context_id w).2 evs
    /\ chain_from (message_id respmsg) evs = true.
Proof.
  destruct (doWriteReply_run env reply respmsg context_id w) as (evs & Hext & Hrun).
  exists evs. split; [exact Hext|]. apply (parts_run_chain _ _ _ _ _ _ _ Hrun).
Qed.

(** X12. [doWriteReply] stays within its conversation: every message it
    sends goes to the chat of the placeholder, every edit rewrites the
    placeholder, every store write links a message key to the given
    context id, and it neither reads the store nor calls the provider. *)
Theorem doWriteReply_confined (env : Env) (reply : string) (respmsg : Message)
    (context_id : string) (w : World) :
  exists evs,
    extends w (doWriteReply env (Some reply) respmsg context_id w).2 evs
    /\ forall ev, ev ∈ evs -> confined respmsg context_id ev.
Proof.
  destruct (doWriteReply_run env reply respmsg context_id w) as (evs & Hext & Hrun).
  exists evs. split; [exact Hext|]. apply (parts_run_confined _ _ _ _ _ _ _ Hrun).
Qed.

(** ** Continuations *)

Section Continuation.

Variable env : Env.
Variable JSON_parse : string -> JSON.Parsed.

Lemma open_run_completions usermsg model messages context_id evs r :
  open_run usermsg model messages context_id evs r ->
  forall ev, ev ∈ evs -> is_completion ev = true ->
    exists res, ev = EvCompletion model messages res.
Proof.
  intros Hrun ev Hin Hc.
  apply open_run_cases in Hrun as (evs0 & r0 & notice & Htry & -> & Hnotice).
  apply elem_of_app in Hin as [Hin|Hin].
  - apply try_run_cases in Htry as [(e & -> & _) | (respmsg & res & rest & -> & Hnc & _)].
    + apply list_elem_of_singleton in Hin as ->. discriminate Hc.
    + do 3 (apply elem_of_cons in Hin as [->|Hin]; [discriminate Hc|]).
      apply elem_of_cons in Hin as [->|Hin]; [eauto|].
      rewrite (Hnc ev Hin) in Hc. discriminate Hc.
  - destruct Hnotice as [->|[res ->]]; [inversion Hin|].
    apply list_elem_of_singleton in Hin as ->. discriminate Hc.
Qed.

(** A continuation runs [doOpenAI] after its two reads, and does not wait
    for it. *)
Lemma reply_handler_continues usermsg (w : World) context_id c txt :
  continues JSON_parse (redis w) usermsg context_id c txt ->
  exists replied data,
    redis w !! getMessageId replied = Some context_id
    /\ redis w !! context_id = Some data
    /\ reply_handler env JSON_parse usermsg w
       = (Returned tt,
          (doOpenAI env usermsg (model c) (params c ++ [user_turn txt]) context_id
             {| redis := redis w;
                trace := trace w ++ [EvRedisGet (getMessageId replied) (Some context_id);
                                     EvRedisGet context_id (Some data)] |}).2).
Proof.
  intros (replied & data & Hreplied & Hlink & Hid & Hdata & Htruthy & Hparse & Htext).
  exists replied, data. split; [exact Hlink|]. split; [exact Hdata|].
  unfold reply_handler, load_context. rewrite Hreplied. monad_unfold.
  rewrite Hlink. cbn [fst snd trace redis]. rewrite Hid. cbn [fst snd trace redis].
  rewrite Hdata. cbn [fst snd trace redis]. rewrite Htruthy, Hparse.
  cbn [fst snd trace redis]. rewrite Htext. rewrite <- app_assoc. cbn [app].
  unfold user_turn.
  destruct (doOpenAI env usermsg (model c) (params c ++ [{| role := user; content := txt |}])
              context_id _) as [r w']. reflexivity.
Qed.

End Continuation.

(** X13. A text reply to a linked message whose context can be read continues
    that conversation: [reply_handler] reads the link and the context,
    then runs [doOpenAI], which first sends the placeholder naming the
    stored model; every provider call it makes passes the stored model (not
    the configured one) and the stored turns followed by the text as one
    user turn; and [reply_handler] returns normally whatever happens in
    [doOpenAI], which it does not wait for. *)
Theorem continuation_calls_provider (env : Env) (JSON_parse : string -> JSON.Parsed)
    (usermsg : Message) (w : World) (context_id : string) (c : ChatContext)
    (txt : string) :
  continues JSON_parse (redis w) usermsg context_id c txt ->
  (reply_handler env JSON_parse usermsg w).1 = Returned tt
  /\ exists reads evs,
       trace (reply_handler env JSON_parse usermsg w).2 = trace w ++ reads ++ evs
       /\ length reads = 2
       /\ (forall ev, ev ∈ reads -> is_get ev = true)
       /\ (exists res,
             head evs
             = Some (EvSendMessage (chat_id usermsg) (waiting_text (model c))
                       (Some (message_id usermsg)) (Some Markdown) res))
       /\ (forall ev, ev ∈ evs -> is_completion ev = true ->
             exists res,
               ev = EvCompletion (model c) (params c ++ [user_turn txt]) res).
Proof.
  intros Hcont.
  destruct (reply_handler_continues env JSON_parse usermsg w context_id c txt Hcont)
    as (replied & data & _ & _ & ->).
  cbn [fst snd]. split; [reflexivity|].
  match goal with |- context [doOpenAI env usermsg ?m ?ps context_id ?w1] =>
    destruct (doOpenAI_run_head env usermsg m ps context_id w1)
      as (evs & [Htrace _] & Hrun & Hhead)
  end.
  cbn [trace] in Htrace.
  exists [EvRedisGet (getMessageId replied) (Some context_id);
          EvRedisGet context_id (Some data)], evs.
  split; [rewrite Htrace, <- app_assoc; reflexivity|].
  split; [reflexivity|]. split.
  { intros ev Hin. repeat (apply elem_of_cons in Hin as [->|Hin]; [reflexivity|]).
    inversion Hin. }
  split; [unfold placeholder_call in Hhead; eauto|].
  apply (open_run_completions _ _ _ _ _ _ Hrun).
Qed.

(** X13, witness: scenario B. *)
Lemma continuation_calls_provider_witness :
  (reply_handler (Example.env "more") Reader.parse Example.continuation
     Example.after_command).1 = Returned tt.
Proof.
  apply (continuation_calls_provider (Example.env "more") Reader.parse
           Example.continuation Example.after_command "ctx:100-55" Example.context_A
           "tell me more").
  exists (mkMessage 100 1000 (Some Example.botID) None None),
    (JSON.stringify Example.context_A).
  repeat split; vm_compute; reflexivity.
Defined.

(** X14. A continuation keeps the context id of the conversation: every store
    write of [reply_handler] either stores, under the context id that the
    replied-to message is linked to, the stored context with the user's
    turn appended, or links a message key to that same context id. *)
Theorem continuation_keeps_context_id (env : Env) (JSON_parse : string -> JSON.Parsed)
    (usermsg : Message) (w : World) (context_id : string) (c : ChatContext)
    (txt : string) :
  continues JSON_parse (redis w) usermsg context_id c txt ->
  exists evs,
    extends w (reply_handler env JSON_parse usermsg w).2 evs
    /\ forall key value, EvRedisSet key value ∈ evs ->
         (key = context_id /\ value = JSON.stringify (continued c txt))
         \/ ((exists m, key = getMessageId m) /\ value = context_id).
Proof.
  intros Hcont.
  destruct (reply_handler_continues env JSON_parse usermsg w context_id c txt Hcont)
    as (replied & data & _ & _ & ->).
  cbn [fst snd].
  match goal with |- context [doOpenAI env usermsg ?m ?ps context_id ?w1] =>
    destruct (doOpenAI_run env usermsg m ps context_id w1) as (evs & Hext & Hrun);
    set (w2 := w1) in *
  end.
  exists ([EvRedisGet (getMessageId replied) (Some context_id);
           EvRedisGet context_id (Some data)] ++ evs).
  split.
  - eapply (extends_app w w2); [|exact Hext]. subst w2. split; reflexivity.
  - intros key value Hin.
    do 2 (apply elem_of_cons in Hin as [Hin|Hin]; [discriminate Hin|]).
    apply (open_run_writes _ _ _ _ _ _ Hrun key value Hin).
Qed.

(** X14, witness. *)
Lemma continuation_keeps_context_id_witness :
  exists evs,
    extends Example.after_command
      (reply_handler (Example.env "more") Reader.parse Example.continuation
         Example.after_command).2 evs
    /\ forall key value, EvRedisSet key value ∈ evs ->
         (key = "ctx:100-55"
          /\ value = JSON.stringify (continued Example.context_A "tell me more"))
         \/ ((exists m, key = getMessageId m) /\ value = "ctx:100-55").
Proof.
  apply (continuation_keeps_context_id (Example.env "more") Reader.parse
           Example.continuation Example.after_command "ctx:100-55" Example.context_A
           "tell me more").
  exists (mkMessage 100 1000 (Some Example.botID) None None),
    (JSON.stringify Example.context_A).
  repeat split; vm_compute; reflexivity.
Defined.

(** X15. When the value stored under the linked context id parses to a value
    that is not a context (a truthy value without a [params] array),
    a text reply makes [reply_handler] throw a TypeError after its two
    reads: no notice is sent to the user, the provider is not called and
    the store is unchanged. *)
Theorem shapeless_context_throws (env : Env) (JSON_parse : string -> JSON.Parsed)
    (usermsg replied : Message) (w : World) (context_id data txt : string) :
  reply_to_message usermsg = Some replied ->
  redis w !! getMessageId replied = Some context_id ->
  Text.truthy context_id = true ->
  redis w !! context_id = Some data ->
  Text.truthy data = true ->
  JSON_parse data = JSON.Shapeless ->
  text usermsg = Some txt ->
  reply_handler env JSON_parse usermsg w
  = (Thrown UNDEFINED_PUSH,
     {| redis := redis w;
        trace := trace w ++ [EvRedisGet (getMessageId replied) (Some context_id);
                             EvRedisGet context_id (Some data)] |}).
Proof.
  intros Hreplied Hlink Hid Hdata Htruthy Hparse Htext.
  unfold reply_handler, load_context. rewrite Hreplied. monad_unfold.
  rewrite Hlink. cbn [fst snd trace redis]. rewrite Hid. cbn [fst snd trace redis].
  rewrite Hdata. cbn [fst snd trace redis]. rewrite Htruthy, Hparse.
  cbn [fst snd trace redis]. rewrite Htext. rewrite <- app_assoc. reflexivity.
Qed.

(** X15, witness. *)
Lemma shapeless_context_throws_witness :
  (reply_handler (Example.env "more") parse_with_five Example.continuation overwritten).1
  = Thrown UNDEFINED_PUSH.
Proof.
  rewrite (shapeless_context_throws (Example.env "more") parse_with_five
             Example.continuation (mkMessage 100 1000 (Some Example.botID) None None)
             overwritten "ctx:100-55" "5" "tell me more");
    [reflexivity | vm_compute; reflexivity ..].
Defined.

(** ** Persisting, linking and finding a context *)

(** X16. Persisting a context and then linking a message to its id makes a
    later text reply to that message a continuation of that context: the
    link is found, the stored text is not empty and is read back as the
    context.  The id must not be empty or the key of the linked message,
    and [JSON.parse] must read back what [JSON.stringify] wrote. *)
Theorem persisted_context_is_found (env : Env) (JSON_parse : string -> JSON.Parsed)
    (context_id : string) (c : ChatContext) (m usermsg : Message) (txt : string)
    (w : World) :
  (forall c, JSON_parse (JSON.stringify c) = JSON.Context c) ->
  Text.truthy context_id = true ->
  getMessageId m <> context_id ->
  reply_to_message usermsg = Some m ->
  text usermsg = Some txt ->
  continues JSON_parse
    (redis ((updateContext context_id c;;
             linkMessageWithContext (getMessageId m) context_id) w).2)
    usermsg context_id c txt.
Proof.
  intros Hround Hid Hne Hreplied Htext.
  exists m, (JSON.stringify c). monad_unfold.
  split; [exact Hreplied|]. split; [apply lookup_insert_eq|]. split; [exact Hid|].
  split; [rewrite lookup_insert_ne by exact Hne; apply lookup_insert_eq|].
  split; [reflexivity|]. split; [apply Hround | exact Htext].
Qed.

(** X16, witness. *)
Lemma persisted_context_is_found_witness :
  continues Reader.parse
    (redis ((updateContext "ctx:100-55" Example.context_A;;
             linkMessageWithContext
               (getMessageId (mkMessage 100 1000 (Some Example.botID) None None))
               "ctx:100-55")
              Example.start).2)
    Example.continuation "ctx:100-55" Example.context_A "tell me more".
Proof.
  apply (persisted_context_is_found (Example.env "more") Reader.parse "ctx:100-55"
           Example.context_A (mkMessage 100 1000 (Some Example.botID) None None)
           Example.continuation "tell me more"
           Example.start parse_stringify eq_refl).
  - discriminate.
  - reflexivity.
  - reflexivity.
Defined.

(** ** No link without a context *)

Section Resolve.

Variable JSON_parse : string -> JSON.Parsed.

Lemma links_resolve_context (store : gmap string string) (id : string) (c : ChatContext) :
  links_resolve store ->
  Text.startsWith id "ctx:" = true ->
  links_resolve (<[id := JSON.stringify c]> store).
Proof.
  intros Hinv Hid key value Hlook.
  destruct (decide (id = key)) as [->|Hne].
  - rewrite lookup_insert_eq in Hlook. injection Hlook as <-. right. eauto.
  - rewrite lookup_insert_ne in Hlook by exact Hne.
    destruct (Hinv key value Hlook) as [(Hk & Hv & c' & Hc') | Hctx]; [|right; exact Hctx].
    left. split; [exact Hk|]. split; [exact Hv|].
    destruct (decide (id = value)) as [->|Hne'].
    + exists c. apply lookup_insert_eq.
    + exists c'. rewrite lookup_insert_ne by exact Hne'. exact Hc'.
Qed.

Lemma links_resolve_link (store : gmap string string) (id : string) (c : ChatContext)
    (m : Message) :
  links_resolve store ->
  Text.startsWith id "ctx:" = true ->
  store !! id = Some (JSON.stringify c) ->
  links_resolve (<[getMessageId m := id]> store)
  /\ <[getMessageId m := id]> store !! id = Some (JSON.stringify c).
Proof.
  intros Hinv Hid Hc.
  assert (getMessageId m <> id) as Hne.
  { intros H. rewrite <- H in Hid. discriminate Hid. }
  split; [|rewrite lookup_insert_ne by exact Hne; exact Hc].
  intros key value Hlook.
  assert (forall v c', Text.startsWith v "ctx:" = true ->
            store !! v = Some (JSON.stringify c') ->
            <[getMessageId m := id]> store !! v = Some (JSON.stringify c')) as Hkeep.
  { intros v c' Hv Hc'. rewrite lookup_insert_ne; [exact Hc'|].
    intros H. rewrite <- H in Hv. discriminate Hv. }
  destruct (decide (getMessageId m = key)) as [<-|Hne'].
  - rewrite lookup_insert_eq in Hlook. injection Hlook as <-.
    left. split; [reflexivity|]. split; [exact Hid|]. eauto.
  - rewrite lookup_insert_ne in Hlook by exact Hne'.
    destruct (Hinv key value Hlook) as [(Hk & Hv & c' & Hc') | Hctx]; [|right; exact Hctx].
    left. split; [exact Hk|]. split; [exact Hv|]. eauto.
Qed.

Lemma links_resolve_links (evs : list Event) (id : string) (c : ChatContext) :
  Text.startsWith id "ctx:" = true ->
  (forall k v, EvRedisSet k v ∈ evs -> (exists m, k = getMessageId m) /\ v = id) ->
  forall store,
    links_resolve store -> store !! id = Some (JSON.stringify c) ->
    links_resolve (replay evs store).
Proof.
  intros Hid. induction evs as [|ev evs IH]; intros Hw store Hinv Hc; [exact Hinv|].
  cbn [replay fold_left]. fold (replay evs (apply_event store ev)).
  assert (forall k v, EvRedisSet k v ∈ evs -> (exists m, k = getMessageId m) /\ v = id)
    as Hw' by (intros k v Hin; apply Hw; right; exact Hin).
  destruct ev; cbn [apply_event]; try (apply IH; assumption).
  destruct (Hw key value (list_elem_of_here _ _)) as [[m ->] ->].
  destruct (links_resolve_link store id c m Hinv Hid Hc) as [Hinv' Hc'].
  apply IH; assumption.
Qed.

Lemma links_resolve_open_run usermsg model messages id evs r
    (store : gmap string string) :
  open_run usermsg model messages id evs r ->
  Text.startsWith id "ctx:" = true ->
  links_resolve store ->
  links_resolve (replay evs store).
Proof.
  intros Hrun Hid Hinv.
  apply open_run_cases in Hrun as (evs0 & r0 & notice & Htry & -> & Hnotice).
  rewrite replay_app.
  assert (forall st, replay notice st = st) as ->
    by (intros st; destruct Hnotice as [->|[res ->]]; reflexivity).
  apply try_run_cases in Htry as [(e & -> & _) | (respmsg & res & rest & -> & _ & Hw)];
    [exact Hinv|].
  set (c := {| model := model; params := messages |}).
  change (links_resolve
            (replay (EvRedisSet (getMessageId respmsg) id
                       :: EvCompletion model messages res :: rest)
               (<[id := JSON.stringify c]> store))).
  apply (links_resolve_links _ id c Hid).
  - intros k v Hin. apply elem_of_cons in Hin as [Hin|Hin].
    + injection Hin as -> ->. eauto.
    + apply elem_of_cons in Hin as [Hin|Hin]; [discriminate Hin|]. apply Hw. exact Hin.
  - apply links_resolve_context; assumption.
  - apply lookup_insert_eq.
Qed.

Lemma links_resolve_update usermsg (store : gmap string string) (evs : list Event) :
  links_resolve store ->
  update_shape JSON_parse usermsg store evs ->
  links_resolve (replay evs store).
Proof.
  intros Hinv [Hquiet | [(model & payload & r & Hrun)
    | (replied & context_id & data & c & txt & reads & evs0 & r
       & Hreplied & Hlink & Hdata & Hparse & -> & Hreads & Hrun)]].
  - rewrite replay_no_sets by exact Hquiet. exact Hinv.
  - apply (links_resolve_open_run _ _ _ _ _ _ store Hrun); [reflexivity | exact Hinv].
  - rewrite replay_app, (replay_no_sets reads) by exact Hreads.
    apply (links_resolve_open_run _ _ _ _ _ _ store Hrun); [|exact Hinv].
    destruct (Hinv _ _ Hlink) as [(_ & H & _) | [H _]]; [exact H | discriminate H].
Qed.

End Resolve.

(** X17. In every store the bot can reach by handling updates one after the
    other, every link leads somewhere: the value under a message key is a
    context id, and the store holds a stored context under that id.  This
    holds whatever the transport and the provider refuse, because a context
    is always stored before the first link to it is written and is never
    deleted. *)
Theorem reachable_links_resolve (JSON_parse : string -> JSON.Parsed)
    (store : gmap string string) (key id : string) :
  reachable JSON_parse store ->
  Text.startsWith key "msgid:" = true ->
  store !! key = Some id ->
  Text.startsWith id "ctx:" = true
  /\ exists c, store !! id = Some (JSON.stringify c).
Proof.
  intros Hreach Hkey Hlook.
  assert (links_resolve store) as Hinv.
  { clear Hkey Hlook. induction Hreach as [| store env botID state usermsg calls Hreach IH].
    - intros k v H. rewrite lookup_empty in H. discriminate H.
    - destruct (on_message_shape JSON_parse env botID state usermsg
                  {| redis := store; trace := calls |}) as (evs & [_ ->] & Hshape).
      cbn [redis] in *. apply (links_resolve_update JSON_parse usermsg); assumption. }
  destruct (Hinv key id Hlook) as [(_ & Hid & Hc) | [Hctx _]]; [auto|].
  rewrite (ctx_not_msgid _ Hctx) in Hkey. discriminate Hkey.
Qed.

(** X17, witness. *)
Lemma reachable_links_resolve_witness :
  Text.startsWith "ctx:100-55" "ctx:" = true
  /\ exists c, redis Example.after_continuation !! "ctx:100-55" = Some (JSON.stringify c).
Proof.
  apply (reachable_links_resolve Reader.parse (redis Example.after_continuation)
           "msgid:100-1007" "ctx:100-55").
  - assert (reachable Reader.parse (redis Example.after_command)) as Hfirst.
    { apply (reach_update Reader.parse ∅ (Example.env "hi there") Example.botID
               Example.state Example.command []). constructor. }
    assert (Example.after_command
            = {| redis := redis Example.after_command;
                 trace := trace Example.after_command |})
      as Heta by (destruct Example.after_command; reflexivity).
    unfold Example.after_continuation. rewrite Heta.
    apply reach_update. exact Hfirst.
  - reflexivity.
  - vm_compute. reflexivity.
Defined.

(** ** The whitelist *)

Section Whitelist.

Import App.

Lemma split_not_nil (sep : ascii) (s : string) : split sep s <> [].
Proof.
  destruct s as [|c s]; [discriminate|]. cbn [split].
  destruct (Ascii.eqb c sep); [discriminate|]. destruct (split sep s); discriminate.
Qed.

Lemma split_app (sep : ascii) (a b : string) :
  split sep (a +:+ String sep b) = split sep a ++ split sep b.
Proof.
  induction a as [|c a IH].
  - rewrite append_empty. cbn [split]. rewrite Ascii.eqb_refl. reflexivity.
  - rewrite append_cons. cbn [split]. rewrite IH.
    destruct (Ascii.eqb c sep); [reflexivity|].
    pose proof (split_not_nil sep a) as Hne.
    destruct (split sep a) as [|piece pieces]; [congruence | reflexivity].
Qed.

Lemma split_digits (sep : ascii) (s : string) :
  is_digit sep = false -> all_digits s = true -> split sep s = [s].
Proof.
  intros Hsep. induction s as [|c s IH]; intros Hs; [reflexivity|].
  cbn [all_digits] in Hs. apply andb_true_iff in Hs as [Hc Hs].
  cbn [split]. destruct (Ascii.eqb_spec c sep) as [->|_]; [congruence|].
  rewrite (IH Hs). reflexivity.
Qed.

Lemma pretty_Z_shape (z : Z) :
  exists ds, all_digits ds = true /\ ds <> EmptyString
    /\ pretty z = (if (z <? 0)%Z then String "-" ds else ds)
    /\ ds = pretty (Z.abs_N z).
Proof.
  destruct z as [|p|p].
  - exists "0". repeat split; discriminate.
  - destruct (pretty_N_digits (N.pos p)) as [Hd Hne].
    exists (pretty (N.pos p)). repeat split; assumption.
  - destruct (pretty_N_digits (N.pos p)) as [Hd Hne].
    exists (pretty (N.pos p)). repeat split; assumption.
Qed.

Lemma split_pretty (z : Z) : split "," (pretty z) = [pretty z].
Proof.
  destruct (pretty_Z_shape z) as (ds & Hd & _ & -> & _).
  destruct (z <? 0)%Z.
  - cbn [split]. change (Ascii.eqb "-" ",") with false. cbn iota.
    rewrite (split_digits "," ds) by (reflexivity || assumption). reflexivity.
  - apply split_digits; [reflexivity | assumption].
Qed.

Lemma trim_start_white (ws s : string) :
  all_white_space ws = true -> trim_start (ws +:+ s) = trim_start s.
Proof.
  induction ws as [|c ws IH]; intros H; [reflexivity|].
  cbn [all_white_space] in H. apply andb_true_iff in H as [Hc H].
  rewrite append_cons. cbn [trim_start]. rewrite Hc. apply IH. exact H.
Qed.

Lemma digit_of_decimal (c : ascii) :
  is_digit c = true ->
  digit_of 10 c = Some (N_of_ascii c - 48)%N /\ is_white_space c = false
  /\ Ascii.eqb c "-" = false /\ Ascii.eqb c "+" = false
  /\ Ascii.eqb c "x" = false /\ Ascii.eqb c "X" = false.
Proof.
  destruct c as [[] [] [] [] [] [] [] []]; intros H; try discriminate H;
    repeat split; reflexivity.
Qed.

Lemma digit_of_other (c : ascii) : is_digit c = false -> digit_of 10 c = None.
Proof.
  destruct c as [[] [] [] [] [] [] [] []]; intros H; try discriminate H; reflexivity.
Qed.

Lemma digit_of_char (d : N) : (d < 10)%N -> digit_of 10 (pretty_N_char d) = Some d.
Proof.
  intros H. destruct d as [|p]; [reflexivity|].
  do 4 (destruct p as [p|p|]; try reflexivity; try lia).
Qed.

Lemma pretty_N_go_app (x : N) : forall s r,
  pretty_N_go x s +:+ r = pretty_N_go x (s +:+ r).
Proof.
  induction (N.lt_wf_0 x) as [x _ IH]; intros s r.
  destruct (decide (x = 0)%N) as [->|Hx]; [rewrite !pretty_N_go_0; reflexivity|].
  rewrite (pretty_N_go_step x s), (pretty_N_go_step x (s +:+ r)) by lia.
  rewrite IH by (apply N.div_lt; lia). rewrite append_cons. reflexivity.
Qed.

Lemma read_digits_go (x : N) : (0 < x)%N -> forall s,
  exists k, forall acc,
    read_digits 10 acc (pretty_N_go x s)
    = read_digits 10
        (Some (match acc with Some a => a * 10 ^ k + x | None => x end)%N) s.
Proof.
  induction (N.lt_wf_0 x) as [x _ IH]; intros Hx s.
  rewrite pretty_N_go_step by exact Hx.
  assert (x `mod` 10 < 10)%N as Hm by (apply N.mod_lt; lia).
  pose proof (N.div_mod x 10 ltac:(lia)) as Hdm.
  destruct (decide (x `div` 10 = 0)%N) as [Hz|Hnz].
  - rewrite Hz, pretty_N_go_0. exists 1%N. intros acc.
    cbn [read_digits]. rewrite digit_of_char by exact Hm.
    f_equal. f_equal. destruct acc; lia.
  - destruct (IH (x `div` 10)%N) with (s := String (pretty_N_char (x `mod` 10)) s)
      as [k Hk]; [apply N.div_lt; lia | lia |].
    exists (k + 1)%N. intros acc. rewrite Hk. cbn [read_digits].
    rewrite digit_of_char by exact Hm. f_equal. f_equal.
    rewrite N.pow_add_r. destruct acc; lia.
Qed.

Lemma read_digits_pretty (x : N) (rest : string) :
  (forall c r, rest = String c r -> is_digit c = false) ->
  read_digits 10 None (pretty x +:+ rest) = Some x.
Proof.
  intros Hrest.
  assert (forall acc, read_digits 10 acc rest = acc) as Hstop.
  { intros acc. destruct rest as [|c r]; [reflexivity|].
    cbn [read_digits]. rewrite (digit_of_other c (Hrest c r eq_refl)). reflexivity. }
  unfold pretty, pretty_N. destruct (decide (x = 0)%N) as [->|Hx].
  - rewrite append_cons, append_empty. cbn [read_digits].
    change (digit_of 10 "0") with (Some 0%N). cbn iota. apply Hstop.
  - rewrite pretty_N_go_app, append_empty.
    destruct (read_digits_go x ltac:(lia) rest) as [k Hk].
    rewrite Hk. apply Hstop.
Qed.

End Whitelist.

(** Leading white space does not count. *)
Lemma parseInt_white (ws s : string) :
  App.all_white_space ws = true -> App.parseInt (ws +:+ s) = App.parseInt s.
Proof.
  intros Hws. unfold App.parseInt. rewrite trim_start_white by exact Hws. reflexivity.
Qed.

(** The decimal text of an integer, and what may follow it. *)
Lemma parseInt_decimal (z : Z) (rest : string) :
  (Z.abs z <= 2 ^ 53)%Z ->
  App.ends_number z rest ->
  App.parseInt (pretty z +:+ rest) = App.Int z.
Proof.
  intros Hsafe Hrest. unfold App.parseInt.
  assert (forall c r, rest = String c r -> is_digit c = false) as Hnd.
  { intros c r ->. apply Hrest. }
  destruct (pretty_Z_shape z) as (ds & Hd & Hne & Hz & Hds).
  destruct ds as [|d ds]; [congruence|].
  cbn [all_digits] in Hd. apply andb_true_iff in Hd as [Hd Hds'].
  destruct (digit_of_decimal d Hd) as (_ & Hw & Hminus & Hplus & Hx & HX).
  assert (App.strip_prefix_0x (String d ds +:+ rest) = (10%N, String d ds +:+ rest)) as Hradix.
  { rewrite append_cons. unfold App.strip_prefix_0x.
    destruct ds as [|d' ds].
    - rewrite append_empty. destruct rest as [|c r]; [reflexivity|].
      destruct (Ascii.eqb_spec d "0") as [->|_]; [|reflexivity].
      assert (z = 0%Z) as Hzero.
      { assert (pretty (Z.abs_N z) = pretty 0%N) as Hp by (rewrite <- Hds; reflexivity).
        apply (inj pretty) in Hp. lia. }
      destruct Hrest as [_ Hrest]. destruct (Hrest Hzero) as [Hc HC].
      destruct (Ascii.eqb_spec c "x") as [->|_]; [congruence|].
      destruct (Ascii.eqb_spec c "X") as [->|_]; [congruence|]. reflexivity.
    - rewrite append_cons. cbn [all_digits] in Hds'.
      apply andb_true_iff in Hds' as [Hd' _].
      destruct (digit_of_decimal d' Hd') as (_ & _ & _ & _ & Hx' & HX').
      rewrite Hx', HX', andb_false_r. reflexivity. }
  assert (App.read_digits 10 None (String d ds +:+ rest) = Some (Z.abs_N z)) as Hread.
  { rewrite Hds. apply read_digits_pretty. exact Hnd. }
  rewrite Hz.
  assert ((Z.abs_N z <=? 2 ^ 53)%N = true) as Hle.
  { apply N.leb_le. lia. }
  destruct (z <? 0)%Z eqn:Hneg.
  - rewrite append_cons. cbn [App.trim_start].
    change (App.is_white_space "-") with false. cbn iota.
    unfold App.strip_sign. rewrite Ascii.eqb_refl.
    rewrite Hradix, Hread, Hle. f_equal. apply Z.ltb_lt in Hneg. lia.
  - rewrite append_cons. cbn [App.trim_start]. rewrite Hw.
    unfold App.strip_sign. rewrite Hminus, Hplus. rewrite <- append_cons.
    rewrite Hradix, Hread, Hle. f_equal. apply Z.ltb_ge in Hneg. lia.
Qed.

(** X18. [parseInt] reads the decimal text of an integer of magnitude at most
    [2^53] back as that integer, also after white space and also when
    other text follows, as long as that text does not begin with a digit
    (or, after a lone zero, with an [x]): a whitelist entry is taken by its
    numeric prefix. *)
Theorem parseInt_pretty (ws : string) (z : Z) (rest : string) :
  App.all_white_space ws = true ->
  (Z.abs z <= 2 ^ 53)%Z ->
  App.ends_number z rest ->
  App.parseInt (ws +:+ pretty z +:+ rest) = App.Int z.
Proof.
  intros Hws Hsafe Hrest.
  rewrite (parseInt_white ws (pretty z +:+ rest) Hws).
  apply parseInt_decimal; assumption.
Qed.

(** X18, witness. *)
Lemma parseInt_pretty_witness :
  App.parseInt (" " +:+ pretty (-1001234567890)%Z +:+ " # group") = App.Int (-1001234567890).
Proof.
  apply (parseInt_pretty " " (-1001234567890) " # group").
  - reflexivity.
  - vm_compute. discriminate.
  - split; [reflexivity|]. intros H. discriminate H.
Defined.

(** X19. The whitelist of a text with a comma is the whitelist of the part
    before the comma followed by the whitelist of the part after it; an
    empty part, as a trailing comma leaves, grants nothing. *)
Theorem whitelist_app (a b : string) :
  App.granted (App.parse_whitelist (a +:+ "," +:+ b))
  = App.granted (App.parse_whitelist a) ++ App.granted (App.parse_whitelist b)
  /\ App.granted (App.parse_whitelist (a +:+ ","))
     = App.granted (App.parse_whitelist a).
Proof.
  assert (forall b', App.granted (App.parse_whitelist (a +:+ "," +:+ b'))
            = App.granted (App.parse_whitelist a) ++ App.granted (App.parse_whitelist b'))
    as H.
  { intros b'. unfold App.granted, App.parse_whitelist.
    rewrite append_cons, append_empty, split_app, map_app, omap_app. reflexivity. }
  split; [apply H|].
  specialize (H EmptyString). rewrite !append_cons, !append_empty in H.
  rewrite H. apply app_nil_r.
Qed.

(** X20. A whitelist written as decimal chat ids separated by commas is read
    back as the same list of ids, for ids of magnitude at most [2^53]. *)
Theorem whitelist_round_trip (ids : list Z) :
  ids <> [] ->
  Forall (fun z => (Z.abs z <= 2 ^ 53)%Z) ids ->
  App.granted (App.parse_whitelist (App.join_ids ids)) = ids.
Proof.
  assert (forall z, (Z.abs z <= 2 ^ 53)%Z ->
            App.granted (App.parse_whitelist (pretty z)) = [z]) as Hone.
  { intros z Hz. unfold App.granted, App.parse_whitelist.
    rewrite split_pretty. cbn [map omap].
    pose proof (parseInt_decimal z EmptyString Hz I) as Hp.
    rewrite append_nil_r in Hp. rewrite Hp. reflexivity. }
  intros Hne Hsafe. induction ids as [|z ids IH]; [congruence|].
  inversion Hsafe as [|z' ids' Hz Hrest]; subst.
  destruct ids as [|z' ids]; [apply Hone; exact Hz|].
  change (App.join_ids (z :: z' :: ids))
    with (pretty z +:+ "," +:+ App.join_ids (z' :: ids)).
  unfold App.granted, App.parse_whitelist.
  rewrite append_cons, append_empty, split_app, map_app, omap_app.
  fold (App.parse_whitelist (pretty z)). fold (App.granted (App.parse_whitelist (pretty z))).
  fold (App.parse_whitelist (App.join_ids (z' :: ids))).
  fold (App.granted (App.parse_whitelist (App.join_ids (z' :: ids)))).
  rewrite (Hone z Hz), IH; [reflexivity | discriminate | exact Hrest].
Qed.

(** X20, witness: a private chat and a supergroup. *)
Lemma whitelist_round_trip_witness :
  App.granted (App.parse_whitelist (App.join_ids [100; -1001234567890]%Z))
  = [100; -1001234567890]%Z.
Proof.
  apply (whitelist_round_trip [100; -1001234567890]%Z).
  - discriminate.
  - repeat constructor; vm_compute; discriminate.
Defined.
